(** * BFTRaft.go: peer directory, uncommitted range, replication dispatch,
      client membership resolver and client command executor.

    A shallow embedding of the Go sources
      - server package: GetGroupPeers, GetPeer, PeerUncommittedLogEntries,
        SendPeerUncommittedLogEntries, GroupServerPeer
      - client package: NewClient, GetGroupHosts, GetGroupLeader, GroupExists,
        ExecCommand
      - utils/alpha.go: AlphaNodes
    Unsigned 64-bit values are modelled in [Z]; byte strings are lists of
    [Byte.byte]; go-cache instances and Go maps are [gmap]s. *)

From Stdlib Require Import ZArith.
From Stdlib.Strings Require Import Byte.
From stdpp Require Import base list gmap strings pretty.

Open Scope Z_scope.

Abbreviation bytes := (list byte).

(* ===================================================================== *)
(** * Server side: the uncommitted range                                  *)
(* ===================================================================== *)

Module Log.

(** pb.LogEntry, with the fields the code reads. *)
Record LogEntry := mkEntry {
  Term : Z;
  Index : Z;
  Command : bytes
}.

(** [&pb.LogEntry{Term: 0, Index: 0}] *)
Definition sentinel : LogEntry := {| Term := 0; Index := 0; Command := [] |}.

(** The iterator returned by [ReversedLogIterator] is a cursor over the
    entries it still has to yield; [iter.Next()] pops the head and answers
    nil once the cursor is exhausted. *)
Definition Iterator := list LogEntry.

Definition Next (iter : Iterator) : option LogEntry * Iterator :=
  match iter with
  | [] => (None, [])
  | entry :: rest => (Some entry, rest)
  end.

(** The iterator over a log stored in ascending index order yields the
    entries last-to-first. *)
Definition ReversedLogIterator (log : list LogEntry) : Iterator := reverse log.

(** The [for true { ... }] loop of PeerUncommittedLogEntries. Each round
    takes one entry off the iterator, so the loop is structural on it. *)
Fixpoint scan (iter : Iterator) (nextLogIdx : Z)
    (entries : list LogEntry) (prevEntry : LogEntry)
    : list LogEntry * LogEntry :=
  match iter with
  | [] => (entries, prevEntry)                     (* entry == nil: break *)
  | entry :: rest =>
      (* prevEntry = entry *)
      if Index entry <? nextLogIdx
      then (entries, entry)                        (* break *)
      else scan rest nextLogIdx (entries ++ [entry]) entry
  end.

(** [entries[i], entries[j] = entries[j], entries[i]]; both sides are read
    before either slot is written. *)
Definition swap (entries : list LogEntry) (i j : nat) : list LogEntry :=
  match entries !! i, entries !! j with
  | Some ei, Some ej => <[j:=ei]> (<[i:=ej]> entries)
  | _, _ => entries
  end.

(** [for i := 0; i < len(entries)/2; i++ { j := len(entries)-i-1; swap }],
    run for [rounds] more rounds starting at [i]. *)
Fixpoint reverse_loop (rounds : nat) (i : nat) (entries : list LogEntry)
    : list LogEntry :=
  match rounds with
  | O => entries
  | S rounds' =>
      let j := (length entries - i - 1)%nat in
      reverse_loop rounds' (S i) (swap entries i j)
  end.

Definition reverse_in_place (entries : list LogEntry) : list LogEntry :=
  reverse_loop (length entries / 2)%nat 0%nat entries.

(** PeerUncommittedLogEntries, on the iterator of the group's log and the
    peer's NextIndex. *)
Definition PeerUncommittedLogEntries (iter : Iterator) (nextLogIdx : Z)
    : list LogEntry * LogEntry :=
  let '(entries, prevEntry) := scan iter nextLogIdx [] sentinel in
  (reverse_in_place entries, prevEntry).

(** A log is dense from index 1 when its i-th stored entry (from 0) has
    index i + 1. *)
Definition dense_from_1 (log : list LogEntry) : Prop :=
  ∀ (i : nat) e, log !! i = Some e → Index e = Z.of_nat i + 1.

(** The last entry of the log, or the sentinel for an empty log. *)
Definition last_entry (log : list LogEntry) : LogEntry :=
  default sentinel (last log).

(** The range property in the words of the specification's testable
    property 2: the entries are those of the log at or above [k], in log
    order; the anchor has index [k - 1] when [k >= 2] and the log holds that
    index, and is the sentinel otherwise. *)
Definition claimed_uncommitted_range (log : list LogEntry) (k : Z) : Prop :=
  let '(entries, prev) := PeerUncommittedLogEntries (ReversedLogIterator log) k in
  entries = filter (λ e, k ≤ Index e) log ∧
  ((2 ≤ k ∧ ∃ e, e ∈ log ∧ Index e = k - 1) →
     prev ∈ log ∧ Index prev = k - 1) ∧
  (¬ (2 ≤ k ∧ ∃ e, e ∈ log ∧ Index e = k - 1) → prev = sentinel).

(** Scenario 5 of the specification: indices 1..5 with terms 1,1,2,2,3. *)
Definition log5 : list LogEntry :=
  [ mkEntry 1 1 []; mkEntry 1 2 []; mkEntry 2 3 []; mkEntry 2 4 []; mkEntry 3 5 [] ].

End Log.

(* ===================================================================== *)
(** * Shared records                                                      *)
(* ===================================================================== *)

(** pb.Node / spb.Host: a node of the network. *)
Record Node := mkNode {
  Node_Id : Z;
  ServerAddr : string;
  PublicKey : bytes
}.

(** Go's [(value, err)] results keep the error as a message; [None] is a
    nil error. *)
Abbreviation error := string (only parsing).

(** A run of Go code that may end in a runtime panic. *)
Inductive Exec (A : Type) : Type :=
  | Done (a : A)
  | Panic (msg : string).
Arguments Done {A} a.
Arguments Panic {A} msg.

Definition exec_bind {A B} (m : Exec A) (f : A → Exec B) : Exec B :=
  match m with
  | Done a => f a
  | Panic msg => Panic msg
  end.

Notation "x ← m ;;; k" := (exec_bind m (λ x, k))
  (at level 20, m at level 100, k at level 200, right associativity,
   format "x  ←  m  ;;;  '/' k") : stdpp_scope.

Fixpoint exec_mapM {A B} (f : A → Exec B) (l : list A) : Exec (list B) :=
  match l with
  | [] => Done []
  | a :: l' => b ← f a ;;; bs ← exec_mapM f l' ;;; Done (b :: bs)
  end.

(** [strconv.Itoa(int(x))] on a uint64 [x]: the conversion to [int] wraps
    to the signed 64-bit range, then the decimal form is printed. *)
Definition int (x : Z) : Z :=
  let r := x mod 2 ^ 64 in if r <? 2 ^ 63 then r else r - 2 ^ 64.

Definition Itoa (x : Z) : string := pretty x.

Definition byte_eqb (a b : byte) : bool := Byte.eqb a b.

(** The character of the string "-". *)
Definition dash : Ascii.ascii :=
  Ascii.Ascii true false true true false true false false.

(** Whether the character [c] occurs in [s]. *)
Fixpoint string_has (c : Ascii.ascii) (s : string) : bool :=
  match s with
  | EmptyString => false
  | String a s' => if decide (a = c) then true else string_has c s'
  end.

Global Instance byte_eq_dec : EqDecision byte := Byte.byte_eq_dec.

(* ===================================================================== *)
(** * Server side: the peer directory and the replication dispatcher      *)
(* ===================================================================== *)

Module Server.
Import Log.

(** pb.Peer *)
Record Peer := mkPeer {
  Peer_Id : Z;
  Host : Z;
  NextIndex : Z
}.

(** pb.RaftGroup *)
Record RaftGroup := mkGroup {
  Group_Id : Z;
  Group_Term : Z;
  LeaderPeer : Z
}.

(** pb.AppendEntriesRequest *)
Record AppendEntriesRequest := mkAppend {
  AE_Group : Z;
  AE_Term : Z;
  AE_LeaderId : Z;
  AE_PrevLogIndex : Z;
  AE_PrevLogTerm : Z;
  AE_Signature : bytes;
  AE_QuorumVotes : list bytes;
  AE_Entries : list LogEntry
}.

(** ** The key codec *)

Definition byte_of_Z (z : Z) : byte :=
  default x00 (Byte.of_N (Z.to_N (z mod 256))).

Definition Z_of_byte (b : byte) : Z := Z.of_N (Byte.to_N b).

(** Modelled from the spec: [U64Bytes] is not among the sources; a
    fixed-width, order-preserving encoding of a 64-bit unsigned integer,
    i.e. eight bytes, most significant first. *)
Definition U64Bytes (x : Z) : bytes :=
  map (λ i, byte_of_Z (x / 256 ^ i)) [7; 6; 5; 4; 3; 2; 1; 0].

(** Modelled from the spec: [BytesU64] is not among the sources; the
    inverse of [U64Bytes], reading eight bytes of [buf] from [offset]. *)
Definition BytesU64 (buf : bytes) (offset : nat) : Z :=
  foldl (λ acc b, acc * 256 + Z_of_byte b) 0 (take 8 (drop offset buf)).

(** Modelled from the spec: [ComposeKeyPrefix] is not among the sources;
    keys are composed as [u64Bytes(group) ++ u8(tableTag) ++ ...]. *)
Definition ComposeKeyPrefix (group : Z) (table : byte) : bytes :=
  U64Bytes group ++ [table].

(** ** The key/value store and its iterator (badger) *)

(** Byte-lexicographic order of keys. *)
Fixpoint bytes_ltb (a b : bytes) : bool :=
  match a, b with
  | _, [] => false
  | [], _ :: _ => true
  | x :: a', y :: b' =>
      if Z_of_byte x <? Z_of_byte y then true
      else if Z_of_byte y <? Z_of_byte x then false
      else bytes_ltb a' b'
  end.

Fixpoint has_prefix (prefix key : bytes) : bool :=
  match prefix, key with
  | [], _ => true
  | _ :: _, [] => false
  | x :: p', y :: k' => byte_eqb x y && has_prefix p' k'
  end.

(** The store: its rows in ascending key order. *)
Definition Store := list (bytes * bytes).

(** [DB.Get(key, &item)] followed by [ItemValue(&item)]: the value of the
    row, nil when there is no such row. *)
Fixpoint DB_Get (db : Store) (key : bytes) : option bytes :=
  match db with
  | [] => None
  | (k, v) :: db' => if decide (k = key) then Some v else DB_Get db' key
  end.

(** An iterator is the list of rows from its cursor on. *)
Definition KVIterator := list (bytes * bytes).

Definition NewIterator (db : Store) : KVIterator := db.

(** [iter.Seek(key)]: move to the first row whose key is not below [key]. *)
Fixpoint Seek (iter : KVIterator) (key : bytes) : KVIterator :=
  match iter with
  | [] => []
  | (k, v) :: rest => if bytes_ltb k key then Seek rest key else iter
  end.

(** [iter.ValidForPrefix(prefix)] *)
Definition ValidForPrefix (iter : KVIterator) (prefix : bytes) : bool :=
  match iter with
  | [] => false
  | (k, _) :: _ => has_prefix prefix k
  end.

(** [iter.Item().Key()], where the iterator is valid. *)
Definition ItemKey (iter : KVIterator) : bytes :=
  match iter with
  | [] => []
  | (k, _) :: _ => k
  end.

(** ** The server *)

(** A handle of the cluster client pool: the address it is connected to. *)
Inductive Client := ClientTo (addr : string).

(** The part of BFTRaftServer the four functions touch. The caches are
    go-cache instances keyed by strings; a list of peers may hold nil
    pointers. *)
Record BFTRaftServer := mkServer {
  Id : Z;
  DB : Store;
  Peers : gmap string Peer;
  GroupsPeers : gmap string (list (option Peer));
  Logs : Z → list LogEntry
}.

Definition set_Peers (s : BFTRaftServer) (c : gmap string Peer) : BFTRaftServer :=
  {| Id := Id s; DB := DB s; Peers := c; GroupsPeers := GroupsPeers s;
     Logs := Logs s |}.

Definition set_GroupsPeers (s : BFTRaftServer)
    (c : gmap string (list (option Peer))) : BFTRaftServer :=
  {| Id := Id s; DB := DB s; Peers := Peers s; GroupsPeers := c;
     Logs := Logs s |}.

(** A goroutine started by the dispatcher: the AppendEntries call, on the
    client variable it captured (nil when the pool handed none out). *)
Inductive Task :=
  | GoAppendEntries (client : option Client) (req : AppendEntriesRequest).

Section Model.

(** The table tag constant, declared outside the sources at hand. *)
Variable GROUP_PEERS : byte.

(** [proto.Unmarshal(data, &peer)]: the record as the decoder leaves it,
    and the error it reports. *)
Variable Unmarshal : bytes → Peer * option error.

(** [s.GetNode(id)], nil for an unknown node. *)
Variable GetNode : Z → option Node.

(** [s.ClusterClients.Get(addr)]: the pool's two results. *)
Variable ClusterClients_Get : string → option Client * option error.

Variable AppendLogEntrySignData : Z → Z → Z → Z → bytes.
Variable Sign : bytes → bytes.

(** [fmt.Sprint(group, "-", peer_id)]: no blank is added next to a string
    operand. *)
Definition peerCacheKey (group peer_id : Z) : string :=
  pretty group +:+ "-" +:+ pretty peer_id.

Definition GetPeer (s : BFTRaftServer) (group peer_id : Z)
    : option Peer * BFTRaftServer :=
  let cacheKey := peerCacheKey group peer_id in
  match Peers s !! cacheKey with
  | Some cachedPeer => (Some cachedPeer, s)
  | None =>
      let dbKey := ComposeKeyPrefix group GROUP_PEERS ++ U64Bytes peer_id in
      match DB_Get (DB s) dbKey with
      | None => (None, s)
      | Some data =>
          (* the error of proto.Unmarshal is dropped *)
          let peer := (Unmarshal data).1 in
          (Some peer, set_Peers s (<[cacheKey := peer]> (Peers s)))
      end
  end.

(** The behaviour of GetPeer in the words of the specification: absent
    when the row is absent, and a stored value that fails to decode is
    treated as absent too, without being cached. *)
Definition claimed_GetPeer_absent (s : BFTRaftServer) (group peer_id : Z)
    : Prop :=
  let dbKey := ComposeKeyPrefix group GROUP_PEERS ++ U64Bytes peer_id in
  (DB_Get (DB s) dbKey = None → (GetPeer s group peer_id).1 = None) ∧
  (∀ data err, DB_Get (DB s) dbKey = Some data →
     (Unmarshal data).2 = Some err →
     GetPeer s group peer_id = (None, s)).

(** The loop of GetGroupPeers. Its body never moves the iterator, so the
    model carries a bound on the number of rounds: [None] says the bound
    was reached with the loop still running. *)
Fixpoint GetGroupPeers_loop (fuel : nat) (s : BFTRaftServer) (group : Z)
    (keyPrefix : bytes) (iter : KVIterator) (peers : list (option Peer))
    : option (list (option Peer) * BFTRaftServer) :=
  match fuel with
  | O => None
  | S fuel' =>
      if ValidForPrefix iter keyPrefix then
        let item_key := ItemKey iter in
        let peer_id := BytesU64 item_key (length keyPrefix) in
        let '(peer, s') := GetPeer s group peer_id in
        GetGroupPeers_loop fuel' s' group keyPrefix iter (peers ++ [peer])
      else Some (peers, s)
  end.

Definition GetGroupPeers (fuel : nat) (s : BFTRaftServer) (group : Z)
    : option (list (option Peer) * BFTRaftServer) :=
  let cacheKey := Itoa (int group) in
  match GroupsPeers s !! cacheKey with
  | Some cachedGroupPeers => Some (cachedGroupPeers, s)
  | None =>
      let keyPrefix := ComposeKeyPrefix group GROUP_PEERS in
      let iter := Seek (NewIterator (DB s)) (keyPrefix ++ U64Bytes 0) in
      match GetGroupPeers_loop fuel s group keyPrefix iter [] with
      | None => None
      | Some (peers, s') =>
          Some (peers, set_GroupsPeers s' (<[cacheKey := peers]> (GroupsPeers s')))
      end
  end.

(** SendPeerUncommittedLogEntries: the goroutines it starts. *)
Definition SendPeerUncommittedLogEntries (s : BFTRaftServer)
    (group : RaftGroup) (peer : Peer) : list Task :=
  match GetNode (Host peer) with
  | None => []
  | Some node =>
      let '(client, err) := ClusterClients_Get (ServerAddr node) in
      match err with
      | Some _ =>                                       (* err != nil *)
          let '(entries, prevEntry) :=
            PeerUncommittedLogEntries
              (ReversedLogIterator (Logs s (Group_Id group))) (NextIndex peer) in
          let signData :=
            AppendLogEntrySignData (Group_Id group) (Group_Term group)
              (Index prevEntry) (Term prevEntry) in
          [ GoAppendEntries client
              {| AE_Group := Group_Id group;
                 AE_Term := Group_Term group;
                 AE_LeaderId := Id s;
                 AE_PrevLogIndex := Index prevEntry;
                 AE_PrevLogTerm := Term prevEntry;
                 AE_Signature := Sign signData;
                 AE_QuorumVotes := [];
                 AE_Entries := entries |} ]
      | None => []
      end
  end.

(** The [range] loop of GroupServerPeer: the first peer hosted by the
    server [id]. [peer.Host] reads through the pointer, so a nil peer met
    before a match ends the run in a panic. *)
Fixpoint GroupServerPeer_range (id : Z) (peers : list (option Peer))
    : Exec (option Peer) :=
  match peers with
  | [] => Done None
  | None :: _ => Panic "invalid memory address or nil pointer dereference"
  | Some peer :: rest =>
      if Host peer =? id then Done (Some peer)
      else GroupServerPeer_range id rest
  end.

(** GroupServerPeer; [None] when the loop of GetGroupPeers is still
    running after [fuel] rounds. *)
Definition GroupServerPeer (fuel : nat) (s : BFTRaftServer) (groupId : Z)
    : option (Exec (option Peer) * BFTRaftServer) :=
  match GetGroupPeers fuel s groupId with
  | None => None
  | Some (peers, s') => Some (GroupServerPeer_range (Id s') peers, s')
  end.

End Model.

(** ** Concrete collaborators for the examples *)

(** A stand-in for the protobuf decoder on Peer: fields 1, 2 and 3 (id,
    host, next index) as base-128 varints; a truncated varint or another
    wire type is an error, and the fields decoded so far stay set. *)
Fixpoint varint (data : bytes) (shift acc : Z) : option (Z * bytes) :=
  match data with
  | [] => None
  | b :: rest =>
      let v := Z_of_byte b in
      let acc' := acc + Z.shiftl (Z.land v 127) shift in
      if v <? 128 then Some (acc' mod 2 ^ 64, rest)
      else varint rest (shift + 7) acc'
  end.

Definition set_field (p : Peer) (field v : Z) : Peer :=
  if field =? 1 then mkPeer v (Host p) (NextIndex p)
  else if field =? 2 then mkPeer (Peer_Id p) v (NextIndex p)
  else if field =? 3 then mkPeer (Peer_Id p) (Host p) v
  else p.

Fixpoint decode_fields (fuel : nat) (data : bytes) (p : Peer)
    : Peer * option error :=
  match fuel, data with
  | _, [] => (p, None)
  | O, _ => (p, Some "proto: too many fields")
  | S fuel', _ =>
      match varint data 0 0 with
      | None => (p, Some "unexpected EOF")
      | Some (tag, rest) =>
          if Z.land tag 7 =? 0 then
            match varint rest 0 0 with
            | None => (p, Some "unexpected EOF")
            | Some (v, rest') =>
                decode_fields fuel' rest' (set_field p (Z.shiftr tag 3) v)
            end
          else (p, Some "proto: unsupported wire type")
      end
  end.

Definition Unmarshal_varint (data : bytes) : Peer * option error :=
  decode_fields (length data) data (mkPeer 0 0 0).

Definition table_GROUP_PEERS : byte := x01.

(** A server that knows node 9 at "10.0.0.9:4000". *)
Definition node9 : Node := mkNode 9 "10.0.0.9:4000" [].

Definition GetNode_9 (id : Z) : option Node :=
  if id =? 9 then Some node9 else None.

(** A pool that hands out a client for every address. *)
Definition pool_connected (addr : string) : option Client * option error :=
  (Some (ClientTo addr), None).

(** A pool that can reach no address. *)
Definition pool_unreachable (addr : string) : option Client * option error :=
  (None, Some "connection refused").

Definition signData_concat (g t i pt : Z) : bytes :=
  U64Bytes g ++ U64Bytes t ++ U64Bytes i ++ U64Bytes pt.

Definition Sign_id (m : bytes) : bytes := m.

(** Group 1 holds one peer row, for peer 7, whose value is cut off in the
    middle of its second field. *)
Definition row_peer7_truncated : bytes * bytes :=
  (ComposeKeyPrefix 1 table_GROUP_PEERS ++ U64Bytes 7, [x08; x07; x10]).

Definition server1 : BFTRaftServer :=
  {| Id := 9; DB := [row_peer7_truncated]; Peers := ∅; GroupsPeers := ∅;
     Logs := λ _, log5 |}.

Definition group1 : RaftGroup := mkGroup 1 3 7.
Definition peer7 : Peer := mkPeer 7 9 3.

(** [server1] after the peers 5 (on node 4) and 7 (on node 9) of group 1
    were put in its group cache. *)
Definition server1_cached : BFTRaftServer :=
  set_GroupsPeers server1
    (<[Itoa (int 1) := [Some (mkPeer 5 4 1); Some peer7]]> (GroupsPeers server1)).

End Server.

(* ===================================================================== *)
(** * utils: RPC stubs, the quorum query, AlphaNodes                      *)
(* ===================================================================== *)

Module Utils.

(** spb.CommandRequest *)
Record CommandRequest := mkCommand {
  CR_Group : Z;
  CR_ClientId : Z;
  CR_RequestId : Z;
  CR_FuncId : Z;
  CR_Arg : bytes;
  CR_Signature : bytes
}.

(** An RPC stub (spb.BFTRaftClient) is known by what the server behind it
    answers to each call; [None] is an RPC error. The leader answer may
    carry a nil Node. *)
Record RPC := mkRPC {
  rpc_addr : string;
  rpc_GroupHosts : Z → option (list Node);
  rpc_GetGroupLeader : Z → option (option Node);
  rpc_GetGroupContent : Z → option unit;
  rpc_ExecCommand : CommandRequest → option bytes
}.

Section Quorum.

(** The bootstrap group, a constant declared outside the sources at hand. *)
Variable ALPHA_GROUP : Z.

(** [HashData], a 64-bit hash of a byte string. *)
Variable HashData : bytes → Z.

(** [NodesSignData], the canonical bytes of a host list. *)
Variable NodesSignData : list Node → bytes.

(** [GetClusterRPC(addr)]: the stub, or [None] when it reports an error. *)
Variable GetClusterRPC : string → option RPC.

(** The number of non-abstaining responses whose canonical bytes hash to
    [h]: empty bytes are an abstention and enter no tally. *)
Definition tally {V} (responses : list (V * bytes)) (h : Z) : nat :=
  length (filter (λ r, r.2 ≠ [] ∧ HashData r.2 = h) responses).

(** A response wins when it does not abstain and its hash is held by more
    than half of the polled clients. *)
Definition wins {V} (polled : nat) (responses : list (V * bytes))
    (r : V * bytes) : Prop :=
  r.2 ≠ [] ∧ (polled < 2 * tally responses (HashData r.2))%nat.

Global Instance wins_dec {V} polled (responses : list (V * bytes)) r :
  Decision (wins polled responses r).
Proof. unfold wins. apply _. Defined.

(** Modelled from the spec: [MajorityResponse] is not among the sources.
    The query runs on every client; each response's canonical bytes are
    hashed, empty bytes abstaining; the winning hash is the one held by a
    strict majority (more than |P|/2) of the responses; a value associated
    with the winning hash is returned, none if there is no majority. A
    panic inside the query takes the run down. *)
Definition MajorityResponse {V} (clients : list RPC)
    (f : RPC → Exec (V * bytes)) : Exec (option V) :=
  responses ← exec_mapM f clients ;;;
  Done (fst <$> head (filter (wins (length clients) responses) responses)).

(** The loop of AlphaNodes over the bootstrap addresses: a stub is kept
    when [GetClusterRPC] reported no error. *)
Fixpoint bootstrap (servers : list string) (bootstrapServers : list RPC)
    : list RPC :=
  match servers with
  | [] => bootstrapServers
  | addr :: servers' =>
      match GetClusterRPC addr with
      | Some c => bootstrap servers' (bootstrapServers ++ [c])
      | None => bootstrap servers' bootstrapServers
      end
  end.

(** The query closure of AlphaNodes. The value is the response pointer,
    nil on the error branch. *)
Definition alphaQuery (c : RPC) : Exec (option (list Node) * bytes) :=
  match rpc_GroupHosts c ALPHA_GROUP with
  | Some nodes => Done (Some nodes, NodesSignData nodes)
  | None => Done (None, [])
  end.

(** What the closure answers with: it has no branch that panics. *)
Definition alphaAnswer (c : RPC) : option (list Node) * bytes :=
  match rpc_GroupHosts c ALPHA_GROUP with
  | Some nodes => (Some nodes, NodesSignData nodes)
  | None => (None, [])
  end.

(** AlphaNodes. A non-nil interface holding the nil response pointer of the
    error branch would be dereferenced by [.Nodes]. *)
Definition AlphaNodes (servers : list string) : Exec (option (list Node)) :=
  let bootstrapServers := bootstrap servers [] in
  res ← MajorityResponse bootstrapServers alphaQuery ;;;
  match res with
  | None => Done None
  | Some (Some nodes) => Done (Some nodes)
  | Some None => Panic "invalid memory address or nil pointer dereference"
  end.

(** Whether the AlphaNodes query on [c] succeeds with non-empty canonical
    bytes that hash like those of [nodes]. *)
Definition alpha_agrees (nodes : list Node) (c : RPC) : bool :=
  match rpc_GroupHosts c ALPHA_GROUP with
  | Some nodes' =>
      bool_decide (NodesSignData nodes' ≠ [] ∧
                   HashData (NodesSignData nodes') = HashData (NodesSignData nodes))
  | None => false
  end.

End Quorum.

(** ** Concrete collaborators for the examples *)

(** A stand-in for the 64-bit hash: the bytes read as a number in base 256
    behind a leading 1, cut to 64 bits. *)
Definition HashData_poly (data : bytes) : Z :=
  foldl (λ acc b, acc * 256 + Z.of_N (Byte.to_N b)) 1 data mod 2 ^ 64.

(** A stand-in for the canonical bytes of a host list: the addresses, each
    closed by a zero byte. *)
Definition NodesSignData_addrs (nodes : list Node) : bytes :=
  flat_map (λ n, String.list_byte_of_string (ServerAddr n) ++ [x00]) nodes.

Definition hostA : Node := mkNode 11 "10.0.0.11:4000" [].
Definition hostB : Node := mkNode 12 "10.0.0.12:4000" [].
Definition hostC : Node := mkNode 13 "10.0.0.13:4000" [].
Definition hostD : Node := mkNode 14 "10.0.0.14:4000" [].

(** A server that knows the hosts [hs] of every group, names [leader] as
    leader, holds every group, and answers every command with [result]. *)
Definition honest (addr : string) (hs : list Node) (leader : Node)
    (result : bytes) : RPC :=
  {| rpc_addr := addr;
     rpc_GroupHosts := λ _, Some hs;
     rpc_GetGroupLeader := λ _, Some (Some leader);
     rpc_GetGroupContent := λ _, Some tt;
     rpc_ExecCommand := λ _, Some result |}.

(** A server every call to which fails. *)
Definition failing (addr : string) : RPC :=
  {| rpc_addr := addr;
     rpc_GroupHosts := λ _, None;
     rpc_GetGroupLeader := λ _, None;
     rpc_GetGroupContent := λ _, None;
     rpc_ExecCommand := λ _, None |}.

Definition hosts4 : list Node := [hostA; hostB; hostC; hostD].

(** Of three bootstrap addresses only the first can be dialled. *)
Definition dial_first_only (addr : string) : option RPC :=
  if decide (addr = "10.0.0.11:4000")
  then Some (honest addr hosts4 hostA [x01; x02])
  else None.

(** Every address can be dialled; the server at hostD fails every call. *)
Definition dial_all (addr : string) : option RPC :=
  if decide (addr = "10.0.0.14:4000")
  then Some (failing addr)
  else Some (honest addr hosts4 hostA [x01; x02]).

End Utils.

(* ===================================================================== *)
(** * Client side: membership resolver and command executor              *)
(* ===================================================================== *)

Module Client.
Import Utils.

(** The part of the client's BFTRaftClient struct the functions touch.
    [CmdResChan] keeps, per group, the request ids that have an inbox. *)
Record BFTRaftClient := mkClient {
  Id : Z;
  PrivateKey : bytes;
  AlphaRPCs : list RPC;
  GroupHosts : gmap string (list Node);
  GroupLeader : gmap string RPC;
  CmdResChan : gmap Z (gset Z);
  Counter : Z
}.

Definition set_GroupHosts (brc : BFTRaftClient) (c : gmap string (list Node))
    : BFTRaftClient :=
  {| Id := Id brc; PrivateKey := PrivateKey brc; AlphaRPCs := AlphaRPCs brc;
     GroupHosts := c; GroupLeader := GroupLeader brc;
     CmdResChan := CmdResChan brc; Counter := Counter brc |}.

Definition set_GroupLeader (brc : BFTRaftClient) (c : gmap string RPC)
    : BFTRaftClient :=
  {| Id := Id brc; PrivateKey := PrivateKey brc; AlphaRPCs := AlphaRPCs brc;
     GroupHosts := GroupHosts brc; GroupLeader := c;
     CmdResChan := CmdResChan brc; Counter := Counter brc |}.

Definition set_CmdResChan (brc : BFTRaftClient) (c : gmap Z (gset Z))
    : BFTRaftClient :=
  {| Id := Id brc; PrivateKey := PrivateKey brc; AlphaRPCs := AlphaRPCs brc;
     GroupHosts := GroupHosts brc; GroupLeader := GroupLeader brc;
     CmdResChan := c; Counter := Counter brc |}.

Definition set_Counter (brc : BFTRaftClient) (n : Z) : BFTRaftClient :=
  {| Id := Id brc; PrivateKey := PrivateKey brc; AlphaRPCs := AlphaRPCs brc;
     GroupHosts := GroupHosts brc; GroupLeader := GroupLeader brc;
     CmdResChan := CmdResChan brc; Counter := n |}.

(** The goroutines ExecCommand starts, in the order of their [go]
    statements. *)
Inductive Goroutine :=
  | GoExecOnLeader (leader : RPC) (cmdReq : CommandRequest)
  | GoCollect (expectedResponse : nat)
  | GoWait.

(** What the environment does to one call of ExecCommand: the values the
    request's inbox hands to receives, in order, each with the time (in
    nanoseconds after the timer of the [select] was started) at which it
    is received; and the case [select] picks when the completion signal
    and the timer are ready at the same instant. *)
Record Schedule := mkSchedule {
  inbox : list (Z * bytes);
  tie_completed : bool
}.

(** [10 * time.Second] *)
Definition Second : Z := 1000000000.
Definition timeout : Z := 10 * Second.

Definition errNoLeader : error := "cannot found leader".
Definition errNoHosts : error := "cannot get group hosts".
Definition errTimeout : error := "does not receive enough response".

(** What a call of ExecCommand leaves behind: the Go result pair as a sum,
    the client, and the goroutines it started. *)
Record Reply := mkReply {
  result : bytes + error;
  client : BFTRaftClient;
  spawned : list Goroutine
}.

Section Model.

Variable HashData : bytes → Z.
Variable NodesSignData : list Node → bytes.
Variable GetClusterRPC : string → option RPC.
Variable ExecCommandSignData : CommandRequest → bytes.
Variable Sign : bytes → bytes → bytes.

(** [PickMajority], applied to the hashes of the collected responses. *)
Variable PickMajority : list Z → Z.

(** [ExpectedPlayers], applied to the number of hosts. *)
Variable ExpectedPlayers : nat → nat.

(** The query closure of GetGroupHosts: the value is [&res.Nodes], or nil
    on the error branch. *)
Definition groupHostsQuery (groupId : Z) (client : RPC)
    : Exec (option (list Node) * bytes) :=
  match rpc_GroupHosts client groupId with
  | Some nodes => Done (Some nodes, NodesSignData nodes)
  | None => Done (None, [])
  end.

Definition GetGroupHosts (brc : BFTRaftClient) (groupId : Z)
    : Exec (option (list Node) * BFTRaftClient) :=
  let cacheKey := Itoa (int groupId) in
  match GroupHosts brc !! cacheKey with
  | Some cached => Done (Some cached, brc)
  | None =>
      res ← MajorityResponse HashData (AlphaRPCs brc) (groupHostsQuery groupId) ;;;
      let hosts : option (list Node) :=
        match res with
        | Some (Some nodes) => Some nodes     (* res != nil *)
        | _ => None
        end in
      match hosts with
      | Some nodes =>
          Done (Some nodes,
                set_GroupHosts brc (<[cacheKey := nodes]> (GroupHosts brc)))
      | None => Done (None, brc)
      end
  end.

(** The query closure of GetGroupLeader. A response with a nil Node is
    logged and then dereferenced by [res.Node.ServerAddr]. *)
Definition groupLeaderQuery (groupId : Z) (client : RPC)
    : Exec (option Node * bytes) :=
  match rpc_GetGroupLeader client groupId with
  | Some (Some node) =>
      Done (Some node, String.list_byte_of_string (ServerAddr node))
  | Some None => Panic "invalid memory address or nil pointer dereference"
  | None => Done (None, [])
  end.

Definition GetGroupLeader (brc : BFTRaftClient) (groupId : Z)
    : Exec (option RPC * BFTRaftClient) :=
  let cacheKey := Itoa (int groupId) in
  match GroupLeader brc !! cacheKey with
  | Some cached => Done (Some cached, brc)
  | None =>
      res ← MajorityResponse HashData (AlphaRPCs brc) (groupLeaderQuery groupId) ;;;
      let leaderHost : option Node :=
        match res with
        | Some (Some node) => Some node       (* res != nil *)
        | _ => None
        end in
      match leaderHost with
      | Some node =>
          match GetClusterRPC (ServerAddr node) with
          | Some leader =>
              Done (Some leader,
                    set_GroupLeader brc (<[cacheKey := leader]> (GroupLeader brc)))
          | None => Done (None, brc)
          end
      | None => Done (None, brc)
      end
  end.

(** The query closure of GroupExists. *)
Definition groupExistsQuery (groupId : Z) (client : RPC) : Exec (bool * bytes) :=
  match rpc_GetGroupContent client groupId with
  | Some _ => Done (true, [x01])
  | None => Done (false, [x00])
  end.

(** GroupExists: the result of the quorum query goes through the type
    assertion [res.(bool)] as it is. *)
Definition GroupExists (brc : BFTRaftClient) (groupId : Z) : Exec bool :=
  res ← MajorityResponse HashData (AlphaRPCs brc) (groupExistsQuery groupId) ;;;
  match res with
  | Some b => Done b
  | None => Panic "interface conversion: interface {} is nil, not bool"
  end.

(** The collecting goroutine: [n] more receives from the inbox. [None]
    is a receive that never returns. The last component is the time of
    the latest receive, when [wg.Wait] is released. *)
Fixpoint collect (n : nat) (inbox : list (Z * bytes))
    (responseReceived : gmap Z bytes) (responseHashes : list Z) (at_ : Z)
    : option (gmap Z bytes * list Z * Z) :=
  match n with
  | O => Some (responseReceived, responseHashes, at_)
  | S n' =>
      match inbox with
      | [] => None
      | (t, res) :: inbox' =>
          let hash := HashData res in
          collect n' inbox' (<[hash := res]> responseReceived)
                  (responseHashes ++ [hash]) (Z.max at_ t)
      end
  end.

(** The [select]: the completion case when the collector is through before
    the timer fires, the timer case when it fires first. *)
Definition await (expectedResponse : nat) (sched : Schedule) : bytes + error :=
  match collect expectedResponse (inbox sched) ∅ [] 0 with
  | Some (responseReceived, responseHashes, at_) =>
      if (at_ <? timeout) || ((at_ =? timeout) && tie_completed sched) then
        let majorityHash := PickMajority responseHashes in
        let majorityData := default [] (responseReceived !! majorityHash) in
        inl majorityData
      else inr errTimeout
  | None => inr errTimeout
  end.

(** [brc.CmdResChan[groupId][reqId] = make(chan []byte)], after the group's
    map was created if need be. *)
Definition register (brc : BFTRaftClient) (groupId reqId : Z) : BFTRaftClient :=
  let chans := default ∅ (CmdResChan brc !! groupId) in
  set_CmdResChan brc (<[groupId := chans ∪ {[reqId]}]> (CmdResChan brc)).

(** The deferred [close] and [delete]. *)
Definition unregister (brc : BFTRaftClient) (groupId reqId : Z) : BFTRaftClient :=
  let chans := default ∅ (CmdResChan brc !! groupId) in
  set_CmdResChan brc (<[groupId := chans ∖ {[reqId]}]> (CmdResChan brc)).

(** [uint64(atomic.AddInt64(&brc.Counter, 1))] *)
Definition nextCounter (brc : BFTRaftClient) : Z := int (Counter brc + 1).

Definition signedRequest (brc : BFTRaftClient) (groupId reqId funcId : Z)
    (arg : bytes) : CommandRequest :=
  let cmdReq := {| CR_Group := groupId; CR_ClientId := Id brc;
                   CR_RequestId := reqId; CR_FuncId := funcId;
                   CR_Arg := arg; CR_Signature := [] |} in
  let signData := ExecCommandSignData cmdReq in
  {| CR_Group := groupId; CR_ClientId := Id brc;
     CR_RequestId := reqId; CR_FuncId := funcId;
     CR_Arg := arg; CR_Signature := Sign (PrivateKey brc) signData |}.

Definition ExecCommand (brc : BFTRaftClient) (groupId funcId : Z) (arg : bytes)
    (sched : Schedule) : Exec Reply :=
  r ← GetGroupLeader brc groupId ;;;
  match r.1 with
  | None => Done (mkReply (inr errNoLeader) r.2 [])
  | Some leader =>
      let brc1 := set_Counter r.2 (nextCounter r.2) in
      let reqId := Counter brc1 mod 2 ^ 64 in
      let cmdReq := signedRequest brc1 groupId reqId funcId arg in
      let brc2 := register brc1 groupId reqId in
      let go_leader := GoExecOnLeader leader cmdReq in
      h ← GetGroupHosts brc2 groupId ;;;
      match h.1 with
      | None =>
          Done (mkReply (inr errNoHosts) (unregister h.2 groupId reqId)
                        [go_leader])
      | Some hosts =>
          let expectedResponse := ExpectedPlayers (length hosts) in
          Done (mkReply (await expectedResponse sched)
                        (unregister h.2 groupId reqId)
                        [go_leader; GoCollect expectedResponse; GoWait])
      end
  end.

(** The responses the collector took off the inbox. *)
Definition collected (expectedResponse : nat) (sched : Schedule) : list bytes :=
  take expectedResponse (snd <$> inbox sched).

(** How many of [responses] hash like [data]. *)
Definition hash_equal_count (data : bytes) (responses : list bytes) : nat :=
  length (filter (λ res, HashData res = HashData data) responses).

(** The inbox entries received no later than the timer fires. *)
Definition within_timeout (sched : Schedule) : list (Z * bytes) :=
  filter (λ m, m.1 ≤ timeout) (inbox sched).

(** The acceptance rule in the words of the specification's testable
    property 4: a result is returned only if at least
    [expectedPlayers(|hosts|)] of the collected responses are hash-equal to
    the returned bytes. *)
Definition claimed_result_quorum (brc : BFTRaftClient) (groupId funcId : Z)
    (arg : bytes) (sched : Schedule) : Prop :=
  ∀ reply hosts data,
    ExecCommand brc groupId funcId arg sched = Done reply →
    GroupHosts (client reply) !! Itoa (int groupId) = Some hosts →
    result reply = inl data →
    (ExpectedPlayers (length hosts)
       ≤ hash_equal_count data
           (collected (ExpectedPlayers (length hosts)) sched))%nat.

(** The leader is resolved to [leader] and the host list to [hosts] (nil
    for [None]) on the way through ExecCommand. *)
Definition resolves (brc : BFTRaftClient) (groupId : Z) (leader : RPC)
    (hosts : option (list Node)) : Prop :=
  ∃ brc1 brc3,
    GetGroupLeader brc groupId = Done (Some leader, brc1) ∧
    let brc1' := set_Counter brc1 (nextCounter brc1) in
    GetGroupHosts (register brc1' groupId (Counter brc1' mod 2 ^ 64)) groupId
      = Done (hosts, brc3).

(** The request ExecCommand signs and hands to the leader goroutine. *)
Definition submitted (brc : BFTRaftClient) (groupId funcId : Z) (arg : bytes)
    (cmdReq : CommandRequest) : Prop :=
  CR_Group cmdReq = groupId ∧ CR_ClientId cmdReq = Id brc ∧
  CR_FuncId cmdReq = funcId ∧ CR_Arg cmdReq = arg ∧
  CR_Signature cmdReq =
    Sign (PrivateKey brc)
      (ExecCommandSignData
         {| CR_Group := groupId; CR_ClientId := Id brc;
            CR_RequestId := CR_RequestId cmdReq; CR_FuncId := funcId;
            CR_Arg := arg; CR_Signature := [] |}).

(** What the closures of GetGroupHosts and GetGroupLeader answer with when
    they do not panic. *)
Definition hostsAnswer (groupId : Z) (c : RPC) : option (list Node) * bytes :=
  match rpc_GroupHosts c groupId with
  | Some nodes => (Some nodes, NodesSignData nodes)
  | None => (None, [])
  end.

Definition leaderAnswer (groupId : Z) (c : RPC) : option Node * bytes :=
  match rpc_GetGroupLeader c groupId with
  | Some (Some node) => (Some node, String.list_byte_of_string (ServerAddr node))
  | _ => (None, [])
  end.

(** The canonical bytes a client contributes to the quorum query of
    GetGroupHosts, empty when it abstains. *)
Definition hostsCanonical (groupId : Z) (c : RPC) : bytes :=
  match rpc_GroupHosts c groupId with
  | Some nodes => NodesSignData nodes
  | None => []
  end.

(** The canonical bytes a client contributes to the quorum query of
    GetGroupLeader. *)
Definition leaderCanonical (groupId : Z) (c : RPC) : bytes :=
  match rpc_GetGroupLeader c groupId with
  | Some (Some node) => String.list_byte_of_string (ServerAddr node)
  | _ => []
  end.

(** A strict majority of [clients] produced exactly the non-empty canonical
    bytes [b]. *)
Definition strict_majority (canon : RPC → bytes) (b : bytes)
    (clients : list RPC) : Prop :=
  b ≠ [] ∧ (length clients < 2 * length (filter (λ c, canon c = b) clients))%nat.

(** The hash tells the given byte strings apart. *)
Definition collision_free (bs : list bytes) : Prop :=
  ∀ b1 b2, b1 ∈ bs → b2 ∈ bs → HashData b1 = HashData b2 → b1 = b2.

End Model.

(** ClientOptions *)
Record ClientOptions := mkOptions {
  Opt_PrivateKey : bytes
}.

Section Construction.

(** [utils.ParsePrivateKey]: the key and the error it reports. *)
Variable ParsePrivateKey : bytes → bytes * option error.
Variable PublicKeyFromPrivate : bytes → bytes.
Variable HashPublicKey : bytes → Z.

(** [NewAlphaRPCsCache(bootstraps)], known by the stubs its [Get] hands
    out. *)
Variable NewAlphaRPCsCache : list string → list RPC.

(** NewClient: the Go result pair. *)
Definition NewClient (bootstraps : list string) (opts : ClientOptions)
    : option BFTRaftClient * option error :=
  let '(privateKey, err) := ParsePrivateKey (Opt_PrivateKey opts) in
  match err with
  | Some e => (None, Some e)
  | None =>
      let publicKey := PublicKeyFromPrivate privateKey in
      (Some {| Id := HashPublicKey publicKey;
               PrivateKey := privateKey;
               AlphaRPCs := NewAlphaRPCsCache bootstraps;
               GroupHosts := ∅;
               GroupLeader := ∅;
               CmdResChan := ∅;
               Counter := 0 |},
       None)
  end.

End Construction.

(** ** Concrete collaborators for the examples *)

Definition count_of (h : Z) (hashes : list Z) : nat :=
  length (filter (λ x, x = h) hashes).

(** Modelled from the spec: [PickMajority] is not among the sources; the
    hash with a plurality among the collected ones, the earliest such hash
    when several share the highest count (0 for no hash at all). *)
Definition PickMajority_plurality (hashes : list Z) : Z :=
  foldl (λ best h, if (count_of best hashes <? count_of h hashes)%nat
                   then h else best)
        (default 0 (head hashes)) hashes.

(** Modelled from the spec: [ExpectedPlayers] is not among the sources;
    the quorum size over n hosts, 2n/3 rounded down, plus 1. *)
Definition ExpectedPlayers_bft (n : nat) : nat := (2 * n / 3 + 1)%nat.

Definition ExecCommandSignData_fields (r : CommandRequest) : bytes :=
  Server.U64Bytes (CR_Group r) ++ Server.U64Bytes (CR_ClientId r) ++
  Server.U64Bytes (CR_RequestId r) ++ Server.U64Bytes (CR_FuncId r) ++ CR_Arg r.

Definition Sign_concat (key m : bytes) : bytes := key ++ m.

Definition alphaA : RPC := honest "10.0.0.11:4000" hosts4 hostA [x01; x02].
Definition alphaB : RPC := honest "10.0.0.12:4000" hosts4 hostA [x01; x02].
Definition alphaC : RPC := honest "10.0.0.13:4000" hosts4 hostA [x01; x02].

(** An alpha node that names the leader but fails the host query. *)
Definition alphaLeaderOnly (addr : string) : RPC :=
  {| rpc_addr := addr;
     rpc_GroupHosts := λ _, None;
     rpc_GetGroupLeader := λ _, Some (Some hostA);
     rpc_GetGroupContent := λ _, Some tt;
     rpc_ExecCommand := λ _, Some [x01; x02] |}.

(** An alpha node that answers the leader query with a nil Node. *)
Definition alphaNilLeader (addr : string) : RPC :=
  {| rpc_addr := addr;
     rpc_GroupHosts := λ _, Some hosts4;
     rpc_GetGroupLeader := λ _, Some None;
     rpc_GetGroupContent := λ _, Some tt;
     rpc_ExecCommand := λ _, Some [x01; x02] |}.

Definition newClient (alphas : list RPC) : BFTRaftClient :=
  {| Id := 77; PrivateKey := [x2a]; AlphaRPCs := alphas;
     GroupHosts := ∅; GroupLeader := ∅; CmdResChan := ∅; Counter := 0 |}.

(** Three alpha nodes that agree on hosts and leader. *)
Definition client3 : BFTRaftClient := newClient [alphaA; alphaB; alphaC].

(** Two alpha nodes, of which one holds the group and one fails. *)
Definition client_split : BFTRaftClient :=
  newClient [alphaA; failing "10.0.0.14:4000"].

(** Three alpha nodes that name the leader and fail the host query. *)
Definition client_nohosts : BFTRaftClient :=
  newClient [alphaLeaderOnly "10.0.0.11:4000"; alphaLeaderOnly "10.0.0.12:4000";
             alphaLeaderOnly "10.0.0.13:4000"].

(** Three alpha nodes, the last of which knows no leader of the group. *)
Definition client_nil_leader : BFTRaftClient :=
  newClient [alphaA; alphaB; alphaNilLeader "10.0.0.13:4000"].

(** A stand-in for the key parser: the empty input is no key, any other is
    taken as it is. *)
Definition ParsePrivateKey_raw (pem : bytes) : bytes * option error :=
  match pem with
  | [] => ([], Some "failed to parse private key")
  | _ => (pem, None)
  end.

Definition PublicKeyFromPrivate_rev (key : bytes) : bytes := reverse key.

(** The alpha stubs of a new client: one per bootstrap address. *)
Definition NewAlphaRPCsCache_dial (bootstraps : list string) : list RPC :=
  omap dial_all bootstraps.

Definition bootstraps3 : list string :=
  ["10.0.0.11:4000"; "10.0.0.12:4000"; "10.0.0.13:4000"].

(** Scenario 2 of the specification as the collector may see it: the
    deviating reply first, then the matching ones, one second apart. *)
Definition sched_byzantine_first : Schedule :=
  {| inbox := [ (1 * Second, [x99]); (2 * Second, [x01; x02]);
                (3 * Second, [x01; x02]); (4 * Second, [x01; x02]) ];
     tie_completed := true |}.

(** Scenario 4 of the specification: a single reply within ten seconds,
    the others late. *)
Definition sched_one_reply : Schedule :=
  {| inbox := [ (1 * Second, [x01; x02]); (11 * Second, [x01; x02]);
                (12 * Second, [x01; x02]) ];
     tie_completed := true |}.

End Client.

Module LogFacts.
Import Log.

Lemma swap_length entries i j : length (swap entries i j) = length entries.
Proof.
  unfold swap. destruct (entries !! i), (entries !! j); auto.
  by rewrite !length_insert.
Qed.

Lemma swap_lookup entries (i j k : nat) :
  (i < length entries)%nat → (j < length entries)%nat →
  swap entries i j !! k =
    if decide (k = j) then entries !! i
    else if decide (k = i) then entries !! j
    else entries !! k.
Proof.
  intros Hi Hj. unfold swap.
  destruct (lookup_lt_is_Some_2 _ _ Hi) as [ei Hei].
  destruct (lookup_lt_is_Some_2 _ _ Hj) as [ej Hej].
  rewrite Hei, Hej.
  destruct (decide (k = j)) as [->|Hkj].
  - rewrite list_lookup_insert_eq; [done | by rewrite length_insert].
  - rewrite list_lookup_insert_ne by done.
    destruct (decide (k = i)) as [->|Hki].
    + by rewrite list_lookup_insert_eq.
    + by rewrite list_lookup_insert_ne.
Qed.

(** After [rounds] rounds started at [i], the slots [i .. i+rounds) and their
    mirror images have been exchanged, all others are untouched. *)
Lemma reverse_loop_lookup rounds : ∀ i entries,
  (2 * (i + rounds) ≤ length entries)%nat →
  length (reverse_loop rounds i entries) = length entries ∧
  ∀ k : nat, (k < length entries)%nat →
    reverse_loop rounds i entries !! k =
      if decide ((i ≤ k < i + rounds)%nat ∨
                 (i ≤ length entries - 1 - k < i + rounds)%nat)
      then entries !! (length entries - 1 - k)%nat
      else entries !! k.
Proof.
  induction rounds as [|rounds IH]; intros i entries Hle; simpl.
  - split; [done|]. intros k Hk. case_decide; [lia | done].
  - destruct (IH (S i) (swap entries i (length entries - i - 1))) as [Hlen Hlk].
    { rewrite swap_length. lia. }
    rewrite swap_length in Hlen, Hlk. split; [done|].
    intros k Hk.
    rewrite Hlk, !swap_lookup by lia.
    repeat case_decide; try lia; try done; f_equal; lia.
Qed.

Lemma reverse_in_place_reverse entries :
  reverse_in_place entries = reverse entries.
Proof.
  unfold reverse_in_place.
  pose proof (Nat.div_mod_eq (length entries) 2) as Hdm.
  pose proof (Nat.mod_upper_bound (length entries) 2) as Hmod.
  destruct (reverse_loop_lookup (length entries / 2) 0 entries) as [Hlen Hlk];
    [lia|].
  apply list_eq. intros k.
  destruct (decide (k < length entries)%nat) as [Hk|Hk].
  - rewrite Hlk, reverse_lookup by done.
    case_decide; f_equal; lia.
  - rewrite !lookup_ge_None_2; [done | rewrite length_reverse; lia | lia].
Qed.

(** What the scanning loop computes on an arbitrary iterator: it splits the
    iterator into the longest prefix [hi] of entries at or above [k] and the
    rest [lo]; the anchor is the head of [lo] or, when the iterator runs
    dry, the entry taken last (the initial anchor if none was taken). *)
Lemma scan_split k : ∀ iter acc prev,
  ∃ hi lo,
    iter = hi ++ lo ∧
    Forall (λ e, k ≤ Index e) hi ∧
    match lo with e :: _ => Index e < k | [] => True end ∧
    scan iter k acc prev =
      (acc ++ hi, match lo with e :: _ => e | [] => default prev (last hi) end).
Proof.
  induction iter as [|entry rest IH]; intros acc prev; simpl.
  - exists [], []. rewrite (app_nil_r acc). by split_and!.
  - destruct (Z.ltb_spec (Index entry) k) as [Hlt|Hge].
    + exists [], (entry :: rest). rewrite (app_nil_r acc). by split_and!.
    + destruct (IH (acc ++ [entry]) entry) as (hi & lo & -> & Hhi & Hlo & Heq).
      exists (entry :: hi), lo. split_and!; [done | by constructor | done |].
      rewrite Heq, <- app_assoc. simpl. f_equal.
      destruct lo; [|done].
      rewrite last_cons. by destruct (last hi).
Qed.

Lemma filter_all {A} (P : A → Prop) `{∀ x, Decision (P x)} (l : list A) :
  Forall P l → filter P l = l.
Proof.
  induction 1 as [|x l Hx _ IH]; [done|].
  by rewrite filter_cons_True, IH.
Qed.

Lemma filter_none {A} (P : A → Prop) `{∀ x, Decision (P x)} (l : list A) :
  Forall (λ x, ¬ P x) l → filter P l = [].
Proof.
  induction 1 as [|x l Hx _ IH]; [done|].
  by rewrite filter_cons_False.
Qed.


Lemma dense_app_l pre ent :
  dense_from_1 (pre ++ ent) →
  ∀ (i : nat) e, pre !! i = Some e → Index e = Z.of_nat i + 1.
Proof. intros Hd i e Hi. apply Hd. by apply lookup_app_l_Some. Qed.

Lemma dense_app_r pre ent :
  dense_from_1 (pre ++ ent) →
  ∀ (i : nat) e, ent !! i = Some e → Index e = Z.of_nat (length pre + i) + 1.
Proof.
  intros Hd i e Hi. apply Hd.
  rewrite lookup_app_r by lia. rewrite <- Hi. f_equal. lia.
Qed.

(** The shape of the result on a dense log: the log splits as [pre ++ ent]
    with [ent] returned; [lo] is [pre] as the iterator met it. *)
Lemma uncommitted_split log k :
  ∃ hi lo,
    log = reverse lo ++ reverse hi ∧
    Forall (λ e, k ≤ Index e) (reverse hi) ∧
    match lo with e :: _ => Index e < k | [] => True end ∧
    PeerUncommittedLogEntries (ReversedLogIterator log) k =
      (reverse hi, match lo with e :: _ => e | [] => default sentinel (last hi) end).
Proof.
  unfold PeerUncommittedLogEntries, ReversedLogIterator.
  destruct (scan_split k (reverse log) [] sentinel)
    as (hi & lo & Hsplit & Hhi & Hlo & ->).
  exists hi, lo. simpl. rewrite reverse_in_place_reverse.
  split_and!; [| by apply Forall_reverse | done | done].
  rewrite <- reverse_app, <- Hsplit. by rewrite reverse_involutive.
Qed.

(** C1 (amended). On a log that is dense from index 1, with next index [k],
    PeerUncommittedLogEntries returns as entries exactly the log entries of
    index at least [k], in ascending order (the suffix of the log from
    position [k - 1]). The anchor is the entry of index [k - 1] when
    [2 <= k <= last index + 1]; it is the last entry of the log when [k] lies
    beyond that; it is the sentinel of index 0 and term 0 when the log is
    empty. *)
Theorem uncommitted_range_dense log k :
  dense_from_1 log →
  let entries := (PeerUncommittedLogEntries (ReversedLogIterator log) k).1 in
  let prev := (PeerUncommittedLogEntries (ReversedLogIterator log) k).2 in
  entries = filter (λ e, k ≤ Index e) log ∧
  entries = drop (Z.to_nat (k - 1)) log ∧
  (2 ≤ k ≤ Z.of_nat (length log) + 1 →
     log !! Z.to_nat (k - 2) = Some prev ∧ Index prev = k - 1) ∧
  (Z.of_nat (length log) + 1 < k → prev = last_entry log) ∧
  (log = [] → prev = sentinel).
Proof.
  intros Hd.
  destruct (uncommitted_split log k) as (hi & lo & Hlog & Hhi & Hlo & Heq).
  rewrite Heq. simpl. clear Heq.
  assert (Hlast : ∀ e0 lo', lo = e0 :: lo' →
            log !! length lo' = Some e0 ∧ Index e0 = Z.of_nat (length lo) ∧
            Z.of_nat (length lo) < k).
  { intros e0 lo' ->. simpl in Hlo.
    assert (Hat : log !! length lo' = Some e0).
    { rewrite Hlog, reverse_cons, <- app_assoc.
      rewrite lookup_app_r by (rewrite length_reverse; lia).
      rewrite length_reverse, Nat.sub_diag. done. }
    pose proof (Hd _ _ Hat) as Hidx. simpl. split_and!; [done | lia | lia]. }
  assert (Hpre : Forall (λ e, ¬ k ≤ Index e) (reverse lo)).
  { apply Forall_lookup_2. intros i e Hi.
    pose proof (lookup_lt_Some _ _ _ Hi) as Hlen. rewrite length_reverse in Hlen.
    rewrite Hlog in Hd. pose proof (dense_app_l _ _ Hd _ _ Hi) as Hidx.
    destruct lo as [|e0 lo']; [simpl in Hlen; lia|].
    destruct (Hlast e0 lo' eq_refl) as (_ & _ & ?). lia. }
  assert (Hent : ∀ e1 ent', reverse hi = e1 :: ent' → k ≤ Z.of_nat (length lo) + 1).
  { intros e1 ent' Hr. rewrite Hr in Hhi. apply Forall_cons_1 in Hhi as [Hk _].
    rewrite Hlog in Hd.
    pose proof (dense_app_r _ _ Hd 0%nat e1) as Hidx.
    rewrite Hr, length_reverse in Hidx. specialize (Hidx eq_refl). lia. }
  assert (Hlen : length log = (length lo + length hi)%nat).
  { by rewrite Hlog, length_app, !length_reverse. }
  split_and!.
  - rewrite Hlog, filter_app, (filter_none _ _ Hpre), (filter_all _ _ Hhi).
    done.
  - destruct lo as [|e0 lo'].
    + simpl in Hlog. destruct (reverse hi) as [|e1 ent'] eqn:Hr.
      * by rewrite Hlog, drop_nil.
      * specialize (Hent _ _ eq_refl). simpl in Hent.
        replace (Z.to_nat (k - 1)) with 0%nat by lia. by rewrite Hlog.
    + destruct (Hlast e0 lo' eq_refl) as (_ & _ & Hk).
      destruct (reverse hi) as [|e1 ent'] eqn:Hr.
      * rewrite drop_ge; [done|]. rewrite Hlog, app_nil_r, length_reverse. lia.
      * specialize (Hent _ _ eq_refl).
        rewrite Hlog.
        replace (Z.to_nat (k - 1)) with (length (reverse (e0 :: lo')))
          by (rewrite length_reverse; lia).
        by rewrite drop_app_length.
  - intros Hk. destruct lo as [|e0 lo'].
    + exfalso. simpl in Hlen. destruct (reverse hi) as [|e1 ent'] eqn:Hr.
      * apply (f_equal length) in Hr. rewrite length_reverse in Hr. simpl in Hr. lia.
      * specialize (Hent _ _ eq_refl). simpl in Hent. lia.
    + destruct (Hlast e0 lo' eq_refl) as (Hat & Hidx & Hlt).
      assert (Z.of_nat (length (e0 :: lo')) = k - 1) as Hkeq.
      { destruct (reverse hi) as [|e1 ent'] eqn:Hr.
        - apply (f_equal length) in Hr. rewrite length_reverse in Hr. simpl in Hr.
          lia.
        - specialize (Hent _ _ eq_refl). lia. }
      split; [|lia].
      rewrite <- Hat. f_equal. simpl in Hkeq. lia.
  - intros Hk. unfold last_entry. destruct lo as [|e0 lo'].
    + simpl in Hlen, Hlog. destruct (reverse hi) as [|e1 ent'] eqn:Hr.
      * apply (f_equal length) in Hr. rewrite length_reverse in Hr.
        destruct hi; [|done]. by rewrite Hlog.
      * specialize (Hent _ _ eq_refl). simpl in Hent. lia.
    + destruct (Hlast e0 lo' eq_refl) as (Hat & Hidx & Hlt).
      destruct (reverse hi) as [|e1 ent'] eqn:Hr.
      * rewrite Hlog, app_nil_r, reverse_cons, last_snoc. done.
      * specialize (Hent _ _ eq_refl). lia.
  - intros ->. symmetry in Hlog. apply app_eq_nil in Hlog as [Hlo' Hhi'].
    apply (f_equal length) in Hlo', Hhi'. rewrite length_reverse in Hlo', Hhi'.
    destruct lo; [|done]. destruct hi; [|done]. done.
Qed.

(** The five-entry log of the scenarios is dense from index 1. *)
Lemma log5_dense : dense_from_1 log5.
Proof.
  intros [|[|[|[|[|i]]]]] e He; simpl in He; inversion He; reflexivity.
Qed.

(** C1, at the five-entry log and next index 3: the entries are the log
    from its third position on. *)
Lemma uncommitted_range_dense_witness :
  dense_from_1 log5 ∧
  (PeerUncommittedLogEntries (ReversedLogIterator log5) 3).1
    = drop (Z.to_nat (3 - 1)) log5.
Proof.
  split; [exact log5_dense|].
  exact (proj1 (proj2 (uncommitted_range_dense log5 3 log5_dense))).
Defined.

(** Scenario 5, evaluated. *)
Example uncommitted_range_scenario_5 :
  PeerUncommittedLogEntries (ReversedLogIterator log5) 3 =
    ([mkEntry 2 3 []; mkEntry 2 4 []; mkEntry 3 5 []], mkEntry 1 2 []).
Proof. reflexivity. Qed.

(** With [NextIndex = 0] every entry is above the bound, the iterator runs
    dry, and the anchor is the entry taken last: the first of the log. *)
Example uncommitted_range_next_index_0 :
  PeerUncommittedLogEntries (ReversedLogIterator log5) 0 = (log5, mkEntry 1 1 []).
Proof. reflexivity. Qed.

(** C1 as worded fails: with next index 7 on the five-entry log no entry
    has index 6, the wording asks for the sentinel, and the anchor returned
    is the last entry, of index 5 and term 3. *)
Lemma uncommitted_range_beyond_last_not_sentinel :
  ¬ claimed_uncommitted_range log5 7.
Proof.
  unfold claimed_uncommitted_range.
  change (PeerUncommittedLogEntries (ReversedLogIterator log5) 7)
    with (@nil LogEntry, mkEntry 3 5 []).
  intros (_ & _ & Hsent).
  assert (Hno : ¬ (2 ≤ 7 ∧ ∃ e, e ∈ log5 ∧ Index e = 7 - 1)).
  { intros (_ & e & Hin & Hidx). unfold log5 in Hin.
    repeat (apply elem_of_cons in Hin as [->|Hin]; [simpl in Hidx; lia|]).
    by apply elem_of_nil in Hin. }
  specialize (Hsent Hno). discriminate Hsent.
Qed.

End LogFacts.

Module ServerFacts.
Import Log Server.

Section Facts.

Variable GROUP_PEERS : byte.
Variable Unmarshal : bytes → Peer * option error.
Variable GetNode : Z → option Node.
Variable ClusterClients_Get : string → option Client * option error.
Variable AppendLogEntrySignData : Z → Z → Z → Z → bytes.
Variable Sign : bytes → bytes.

(** A loop round leaves the iterator where it was: once the cursor is on a
    row of the prefix, no bound on the rounds lets the loop finish. *)
Lemma GetGroupPeers_loop_stuck keyPrefix iter group :
  ValidForPrefix iter keyPrefix = true →
  ∀ fuel s peers,
    GetGroupPeers_loop GROUP_PEERS Unmarshal fuel s group keyPrefix iter peers = None.
Proof.
  intros Hvalid. induction fuel as [|fuel IH]; intros s peers; simpl; [done|].
  rewrite Hvalid. destruct (GetPeer _ _ s group _) as [peer s']. apply IH.
Qed.

(** With no row under the prefix the loop ends at once. *)
Lemma GetGroupPeers_loop_empty keyPrefix iter group fuel s peers :
  ValidForPrefix iter keyPrefix = false →
  GetGroupPeers_loop GROUP_PEERS Unmarshal (S fuel) s group keyPrefix iter peers
    = Some (peers, s).
Proof. intros Hvalid. simpl. by rewrite Hvalid. Qed.

(** The dispatcher starts its goroutine exactly when the pool reported an
    error for the address of a known node. *)
Lemma SendPeerUncommittedLogEntries_spawns s group peer :
  SendPeerUncommittedLogEntries GetNode ClusterClients_Get
      AppendLogEntrySignData Sign s group peer ≠ [] ↔
  ∃ node, GetNode (Host peer) = Some node ∧
          (ClusterClients_Get (ServerAddr node)).2 ≠ None.
Proof.
  unfold SendPeerUncommittedLogEntries.
  destruct (GetNode (Host peer)) as [node|];
    [|split; [done | by intros (? & ? & ?)]].
  destruct (ClusterClients_Get (ServerAddr node)) as [client [err|]] eqn:Hget;
    simpl.
  - destruct (PeerUncommittedLogEntries _ _) as [entries prevEntry].
    split; [|done]. intros _. exists node. by rewrite Hget.
  - split; [done|]. intros (node' & [= <-] & Herr). by rewrite Hget in Herr.
Qed.


End Facts.


(** The stored value of peer 7 does not decode. *)
Example peer7_row_malformed :
  Unmarshal_varint [x08; x07; x10] = (mkPeer 7 0 0, Some "unexpected EOF").
Proof. reflexivity. Qed.


(** C6: on the store of [server1], whose group 1 has one peer row, the loop
    of GetGroupPeers is still running after any number of rounds. *)
Theorem GetGroupPeers_never_returns :
  ∀ fuel, GetGroupPeers table_GROUP_PEERS Unmarshal_varint fuel server1 1 = None.
Proof.
  intros fuel. unfold GetGroupPeers.
  change (GroupsPeers server1) with (∅ : gmap string (list (option Peer))).
  rewrite lookup_empty.
  by rewrite GetGroupPeers_loop_stuck.
Qed.

(** A group without peer rows: the peer list is empty, and is cached. *)
Example GetGroupPeers_empty_group :
  (GetGroupPeers table_GROUP_PEERS Unmarshal_varint 1 server1 2
     ≫= λ r, Some r.1) = Some [].
Proof. reflexivity. Qed.

(** C4: for peer 7, owned by the known node 9, a pool that hands out a
    client makes the dispatcher start nothing, and a pool that reports an
    error makes it start the AppendEntries goroutine on a nil client. *)
Theorem SendPeerUncommittedLogEntries_gate_inverted :
  SendPeerUncommittedLogEntries GetNode_9 pool_connected
      signData_concat Sign_id server1 group1 peer7 = [] ∧
  SendPeerUncommittedLogEntries GetNode_9 pool_unreachable
      signData_concat Sign_id server1 group1 peer7 =
    [ GoAppendEntries None
        {| AE_Group := 1; AE_Term := 3; AE_LeaderId := 9;
           AE_PrevLogIndex := 2; AE_PrevLogTerm := 1;
           AE_Signature := signData_concat 1 3 2 1;
           AE_QuorumVotes := [];
           AE_Entries := [mkEntry 2 3 []; mkEntry 2 4 []; mkEntry 3 5 []] |} ].
Proof. split; reflexivity. Qed.

End ServerFacts.

Module UtilsFacts.
Import Utils.

Lemma filter_length_mono {A} (P Q : A → Prop)
    `{∀ x, Decision (P x)} `{∀ x, Decision (Q x)} (l : list A) :
  (∀ x, x ∈ l → P x → Q x) →
  (length (filter P l) ≤ length (filter Q l))%nat.
Proof.
  induction l as [|x l IH]; intros HPQ; [done|].
  assert (IH' : (length (filter P l) ≤ length (filter Q l))%nat).
  { apply IH. intros y Hy. apply HPQ. by right. }
  destruct (decide (P x)) as [HP|HP].
  - rewrite (filter_cons_True P) by done.
    rewrite (filter_cons_True Q) by (apply HPQ; [left|done]).
    simpl. lia.
  - rewrite (filter_cons_False P) by done.
    destruct (decide (Q x)).
    + rewrite (filter_cons_True Q) by done. simpl. lia.
    + by rewrite (filter_cons_False Q).
Qed.

Lemma filter_length_fmap {A B} (g : A → B) (P : B → Prop)
    `{∀ y, Decision (P y)} (l : list A) :
  length (filter P (g <$> l)) = length (filter (λ x, P (g x)) l).
Proof.
  induction l as [|x l IH]; [done|]. rewrite fmap_cons.
  destruct (decide (P (g x))).
  - rewrite (filter_cons_True P), (filter_cons_True (λ x, P (g x))) by done.
    simpl. by rewrite IH.
  - by rewrite (filter_cons_False P), (filter_cons_False (λ x, P (g x))).
Qed.

Section Facts.

Variable ALPHA_GROUP : Z.
Variable HashData : bytes → Z.
Variable NodesSignData : list Node → bytes.
Variable GetClusterRPC : string → option RPC.

Local Abbreviation alphaAnswer := (Utils.alphaAnswer ALPHA_GROUP NodesSignData).
Local Abbreviation alphaQuery := (Utils.alphaQuery ALPHA_GROUP NodesSignData).
Local Abbreviation agrees nodes :=
  (λ c, alpha_agrees ALPHA_GROUP HashData NodesSignData nodes c).
Local Abbreviation AlphaNodes :=
  (Utils.AlphaNodes ALPHA_GROUP HashData NodesSignData GetClusterRPC).

(** A query that cannot panic is answered by every client. *)
Lemma exec_mapM_pure {A B} (f : A → Exec B) (g : A → B) (l : list A) :
  (∀ a, a ∈ l → f a = Done (g a)) → exec_mapM f l = Done (g <$> l).
Proof.
  induction l as [|a l IH]; intros Hf; [done|]. simpl.
  rewrite Hf by left. simpl. rewrite IH; [done|].
  intros b Hb. apply Hf. by right.
Qed.

(** When the fan-out came back, every client answered; [g] names the
    answers. *)
Lemma exec_mapM_Done {A B} (f : A → Exec B) (g : A → B) (l : list A) rs :
  exec_mapM f l = Done rs →
  (∀ a r, a ∈ l → f a = Done r → r = g a) →
  rs = g <$> l.
Proof.
  revert rs. induction l as [|a l IH]; intros rs Hrun Hg; simpl in Hrun.
  - by inversion Hrun.
  - destruct (f a) as [r|] eqn:Hfa; [|done]. simpl in Hrun.
    destruct (exec_mapM f l) as [rs'|] eqn:Hrest; [|done]. simpl in Hrun.
    inversion Hrun; subst. rewrite fmap_cons. f_equal.
    + apply Hg; [left | done].
    + apply IH; [done|]. intros b r' Hb. apply Hg. by right.
Qed.

Lemma tally_fmap {A V} (g : A → V * bytes) (l : list A) (h : Z) :
  tally HashData (g <$> l) h =
    length (filter (λ a, (g a).2 ≠ [] ∧ HashData (g a).2 = h) l).
Proof. unfold tally. apply filter_length_fmap. Qed.

(** A value comes back only as part of a winning response. *)
Lemma MajorityResponse_Some {V} clients (f : RPC → Exec (V * bytes)) v :
  MajorityResponse HashData clients f = Done (Some v) →
  ∃ rs b, exec_mapM f clients = Done rs ∧ (v, b) ∈ rs ∧
          wins HashData (length clients) rs (v, b).
Proof.
  unfold MajorityResponse. destruct (exec_mapM f clients) as [rs|]; [|done].
  simpl. intros [= Hhead].
  destruct (head (filter _ rs)) as [[v' b]|] eqn:Hh; [|done].
  simpl in Hhead. inversion Hhead; subst.
  apply head_Some_elem_of, list_elem_of_filter in Hh as [Hwin Hin].
  by exists rs, b.
Qed.

(** A winning response makes the query return a winning value. *)
Lemma MajorityResponse_winner {V} clients (f : RPC → Exec (V * bytes)) rs r :
  exec_mapM f clients = Done rs → r ∈ rs →
  wins HashData (length clients) rs r →
  ∃ r', MajorityResponse HashData clients f = Done (Some r'.1) ∧ r' ∈ rs ∧
        wins HashData (length clients) rs r'.
Proof.
  intros Hrun Hin Hwin. unfold MajorityResponse. rewrite Hrun. simpl.
  destruct (head (filter _ rs)) as [r'|] eqn:Hh.
  - exists r'. split; [done|].
    apply head_Some_elem_of, list_elem_of_filter in Hh as [? ?]. done.
  - apply head_None in Hh.
    assert (r ∈ filter (wins HashData (length clients) rs) rs) as Hf
      by by apply list_elem_of_filter.
    rewrite Hh in Hf. by apply elem_of_nil in Hf.
Qed.

(** Without a winning response nothing comes back. *)
Lemma MajorityResponse_None {V} clients (f : RPC → Exec (V * bytes)) rs :
  exec_mapM f clients = Done rs →
  Forall (λ r, ¬ wins HashData (length clients) rs r) rs →
  MajorityResponse HashData clients f = Done None.
Proof.
  intros Hrun Hnone. unfold MajorityResponse. rewrite Hrun. simpl.
  destruct (head (filter _ rs)) as [r'|] eqn:Hh; [|done].
  apply head_Some_elem_of, list_elem_of_filter in Hh as [Hwin Hin].
  rewrite Forall_forall in Hnone. by destruct (Hnone r' Hin).
Qed.

Lemma filter_length_disjoint {A} (P Q : A → Prop)
    `{∀ x, Decision (P x)} `{∀ x, Decision (Q x)} (l : list A) :
  (∀ x, P x → Q x → False) →
  (length (filter P l) + length (filter Q l) ≤ length l)%nat.
Proof.
  intros Hdis. induction l as [|x l IH]; [done|].
  destruct (decide (P x)) as [HP|HP]; destruct (decide (Q x)) as [HQ|HQ].
  - destruct (Hdis x HP HQ).
  - rewrite (filter_cons_True P), (filter_cons_False Q) by done. simpl. lia.
  - rewrite (filter_cons_False P), (filter_cons_True Q) by done. simpl. lia.
  - rewrite (filter_cons_False P), (filter_cons_False Q) by done. simpl. lia.
Qed.

(** Two winning responses carry the same hash: two hashes cannot both be
    held by more than half of the clients. *)
Lemma wins_same_hash {V} (rs : list (V * bytes)) r1 r2 :
  wins HashData (length rs) rs r1 → wins HashData (length rs) rs r2 →
  HashData r1.2 = HashData r2.2.
Proof.
  intros [_ H1] [_ H2]. unfold tally in *.
  destruct (decide (HashData r1.2 = HashData r2.2)) as [|Hne]; [done|].
  exfalso.
  pose proof (filter_length_disjoint
    (λ r : V * bytes, r.2 ≠ [] ∧ HashData r.2 = HashData r1.2)
    (λ r : V * bytes, r.2 ≠ [] ∧ HashData r.2 = HashData r2.2) rs) as Hd.
  assert (∀ x : V * bytes,
            x.2 ≠ [] ∧ HashData x.2 = HashData r1.2 →
            x.2 ≠ [] ∧ HashData x.2 = HashData r2.2 → False) as Hx
    by (intros x [_ Ha] [_ Hb]; congruence).
  specialize (Hd Hx). lia.
Qed.

Lemma bootstrap_omap servers acc :
  bootstrap GetClusterRPC servers acc = acc ++ omap GetClusterRPC servers.
Proof.
  revert acc. induction servers as [|addr servers IH]; intros acc; simpl.
  - by rewrite app_nil_r.
  - destruct (GetClusterRPC addr) as [c|]; [|apply IH].
    rewrite IH, <- app_assoc. done.
Qed.

Lemma alphaQuery_answer c : alphaQuery c = Done (alphaAnswer c).
Proof.
  unfold Utils.alphaQuery, Utils.alphaAnswer. by destruct (rpc_GroupHosts c _).
Qed.

Lemma alpha_tally clients nodes :
  tally HashData (alphaAnswer <$> clients) (HashData (NodesSignData nodes)) =
    length (filter (agrees nodes) clients).
Proof.
  rewrite tally_fmap. apply Nat.le_antisymm; apply filter_length_mono;
    intros c _; unfold Utils.alphaAnswer, alpha_agrees;
    destruct (rpc_GroupHosts c ALPHA_GROUP) as [nodes'|]; simpl;
    rewrite ?bool_decide_spec; tauto.
Qed.

Lemma AlphaNodes_run servers :
  exec_mapM alphaQuery (omap GetClusterRPC servers)
    = Done (alphaAnswer <$> omap GetClusterRPC servers).
Proof. apply exec_mapM_pure. intros c _. apply alphaQuery_answer. Qed.

(** C9. AlphaNodes polls exactly the stubs of the addresses that could be
    dialled, in their order; a stub whose GroupHosts call fails answers with
    empty canonical bytes and agrees with no host list; a host list is
    returned only if, and whenever, more than half of the dialled stubs
    (not of the bootstrap addresses) answered with canonical bytes of its
    hash; and the run ends without a panic. *)
Theorem AlphaNodes_quorum_over_connected (servers : list string) :
  let connected := omap GetClusterRPC servers in
  bootstrap GetClusterRPC servers [] = connected ∧
  (∀ c, rpc_GroupHosts c ALPHA_GROUP = None →
     alphaQuery c = Done (None, []) ∧ ∀ nodes, agrees nodes c = false) ∧
  (∀ nodes, AlphaNodes servers = Done (Some nodes) →
     (length connected < 2 * length (filter (agrees nodes) connected))%nat) ∧
  (∀ c nodes, c ∈ connected → rpc_GroupHosts c ALPHA_GROUP = Some nodes →
     NodesSignData nodes ≠ [] →
     (length connected < 2 * length (filter (agrees nodes) connected))%nat →
     ∃ nodes', AlphaNodes servers = Done (Some nodes') ∧
               HashData (NodesSignData nodes') = HashData (NodesSignData nodes)) ∧
  (∃ r, AlphaNodes servers = Done r).
Proof.
  intros connected.
  assert (Hboot : bootstrap GetClusterRPC servers [] = connected)
    by apply bootstrap_omap.
  pose proof (AlphaNodes_run servers) as Hrun. fold connected in Hrun.
  assert (Hlen : length (alphaAnswer <$> connected) = length connected)
    by apply length_fmap.
  (* what a winning answer looks like *)
  assert (Hwin : ∀ v b, (v, b) ∈ alphaAnswer <$> connected → b ≠ [] →
            ∃ nodes, v = Some nodes ∧ b = NodesSignData nodes).
  { intros v b Hin Hb. apply list_elem_of_fmap in Hin as (c & Heq & _).
    unfold Utils.alphaAnswer in Heq.
    destruct (rpc_GroupHosts c ALPHA_GROUP) as [nodes|]; inversion Heq; subst;
      [by exists nodes | done]. }
  split_and!.
  - done.
  - intros c Hc. unfold Utils.alphaQuery, alpha_agrees. by rewrite Hc.
  - intros nodes Hres. unfold Utils.AlphaNodes in Hres. rewrite Hboot in Hres.
    destruct (MajorityResponse HashData connected alphaQuery) as [res|] eqn:HM;
      [|done].
    simpl in Hres. destruct res as [[nodes0|]|]; inversion Hres; subst.
    apply MajorityResponse_Some in HM as (rs & b & Hrs & Hin & Hb & Ht).
    rewrite Hrun in Hrs. inversion Hrs; subst rs. simpl in Hb, Ht.
    destruct (Hwin _ _ Hin Hb) as (nodes' & [= <-] & ->).
    by rewrite alpha_tally in Ht.
  - intros c nodes Hc Hhosts Hne Hmaj.
    assert (Hin : (Some nodes, NodesSignData nodes) ∈ alphaAnswer <$> connected).
    { apply list_elem_of_fmap. exists c. split; [|done].
      unfold Utils.alphaAnswer. by rewrite Hhosts. }
    assert (Hw : wins HashData (length connected) (alphaAnswer <$> connected)
                   (Some nodes, NodesSignData nodes)).
    { split; [done|]. simpl. by rewrite alpha_tally. }
    destruct (MajorityResponse_winner _ _ _ _ Hrun Hin Hw)
      as ([v b] & HM & Hin' & Hw').
    destruct (Hwin _ _ Hin' (proj1 Hw')) as (nodes' & -> & ->).
    exists nodes'. split.
    + unfold Utils.AlphaNodes. rewrite Hboot, HM. done.
    + rewrite <- Hlen in Hw, Hw'. apply (wins_same_hash _ _ _ Hw' Hw).
  - unfold Utils.AlphaNodes. rewrite Hboot.
    destruct (MajorityResponse HashData connected alphaQuery) as [res|] eqn:HM.
    + destruct res as [[nodes0|]|]; simpl; eauto.
      apply MajorityResponse_Some in HM as (rs & b & Hrs & Hin & Hb & Ht).
      rewrite Hrun in Hrs. inversion Hrs; subst rs.
      by destruct (Hwin _ _ Hin Hb) as (nodes' & ? & _).
    + unfold MajorityResponse in HM. by rewrite Hrun in HM.
Qed.

End Facts.

(** Of the bootstrap addresses of hostA, hostB and hostC only the first can
    be dialled: its answer alone is a majority of the one stub polled. *)
Example AlphaNodes_one_of_three_dialled :
  AlphaNodes 1 HashData_poly NodesSignData_addrs dial_first_only
    ["10.0.0.11:4000"; "10.0.0.12:4000"; "10.0.0.13:4000"] = Done (Some hosts4).
Proof. vm_compute. reflexivity. Qed.

End UtilsFacts.

Module ClientFacts.
Import Utils Client UtilsFacts.

Section Facts.

Variable HashData : bytes → Z.
Variable NodesSignData : list Node → bytes.
Variable GetClusterRPC : string → option RPC.
Variable ExecCommandSignData : CommandRequest → bytes.
Variable Sign : bytes → bytes → bytes.
Variable PickMajority : list Z → Z.
Variable ExpectedPlayers : nat → nat.

Local Abbreviation GetGroupHosts := (Client.GetGroupHosts HashData NodesSignData).
Local Abbreviation GetGroupLeader := (Client.GetGroupLeader HashData GetClusterRPC).
Local Abbreviation GroupExists := (Client.GroupExists HashData).
Local Abbreviation collect := (Client.collect HashData).
Local Abbreviation await := (Client.await HashData PickMajority).
Local Abbreviation ExecCommand :=
  (Client.ExecCommand HashData NodesSignData GetClusterRPC ExecCommandSignData
     Sign PickMajority ExpectedPlayers).
Local Abbreviation resolves :=
  (Client.resolves HashData NodesSignData GetClusterRPC).
Local Abbreviation submitted := (Client.submitted ExecCommandSignData Sign).
Local Abbreviation hostsAnswer := (Client.hostsAnswer NodesSignData).
Local Abbreviation hostsCanonical := (Client.hostsCanonical NodesSignData).
Local Abbreviation collision_free := (Client.collision_free HashData).
Local Abbreviation hash_equal_count := (Client.hash_equal_count HashData).

(** ** The collector *)

(** The collector gets through exactly when the inbox delivers enough. *)
Lemma collect_Some n : ∀ inbox rr hs t,
  is_Some (collect n inbox rr hs t) ↔ (n ≤ length inbox)%nat.
Proof.
  induction n as [|n IH]; intros inbox rr hs t; simpl.
  - split; [lia | eauto].
  - destruct inbox as [|[t' res] inbox]; simpl.
    + split; [by intros [? ?] | lia].
    + rewrite IH. lia.
Qed.

(** The hashes are those of the first [n] deliveries, in order; the
    release time is no earlier than any of them. *)
Lemma collect_result n : ∀ inbox rr hs t rr' hs' t',
  collect n inbox rr hs t = Some (rr', hs', t') →
  hs' = hs ++ (HashData <$> take n (snd <$> inbox)) ∧
  t ≤ t' ∧ Forall (λ m, m.1 ≤ t') (take n inbox) ∧
  (∀ h, rr' !! h =
        match last (filter (λ res, HashData res = h) (take n (snd <$> inbox))) with
        | Some res => Some res
        | None => rr !! h
        end).
Proof.
  induction n as [|n IH]; intros inbox rr hs t rr' hs' t' Hc; simpl in Hc.
  - inversion Hc; subst. rewrite !take_0, app_nil_r.
    split_and!; [done | lia | constructor | done].
  - destruct inbox as [|[t1 res] inbox]; [done|].
    apply IH in Hc as (-> & Ht & Hall & Hrr).
    rewrite fmap_cons. simpl. rewrite <- app_assoc. simpl.
    split_and!; [done | lia | |].
    + constructor; [simpl; lia | done].
    + intros h. rewrite Hrr.
      destruct (decide (HashData res = h)) as [Heq|Hne].
      * rewrite filter_cons_True by done. rewrite last_cons.
        destruct (last (filter _ _)); [done|].
        by rewrite <- Heq, lookup_insert_eq.
      * rewrite filter_cons_False by done.
        destruct (last (filter _ _)); [done|].
        by rewrite lookup_insert_ne.
Qed.

(** ** The membership resolver *)

(** With a hash that tells the clients' canonical bytes apart, a winning
    response is backed by a strict majority of byte-identical answers. *)
Lemma wins_strict_majority {V} (ans : RPC → V * bytes) (canon : RPC → bytes)
    (clients : list RPC) v b :
  (∀ c, (ans c).2 = canon c) →
  collision_free (canon <$> clients) →
  (v, b) ∈ ans <$> clients →
  wins HashData (length clients) (ans <$> clients) (v, b) →
  strict_majority canon b clients.
Proof.
  intros Hcanon Hfree Hin [Hb Ht]. split; [done|].
  change ((v, b).2) with b in Hb, Ht. rewrite tally_fmap in Ht.
  assert (Hle : (length (filter (λ a, (ans a).2 ≠ [] ∧
                                      HashData (ans a).2 = HashData b) clients)
                 ≤ length (filter (λ c, canon c = b) clients))%nat).
  { apply filter_length_mono. intros c Hc [Hne Hh]. rewrite Hcanon in Hh.
    apply Hfree; [by apply list_elem_of_fmap_2 | | done].
    apply list_elem_of_fmap in Hin as (c0 & Heq & Hc0).
    apply list_elem_of_fmap. exists c0. split; [|done].
    rewrite <- Hcanon, <- Heq. done. }
  lia.
Qed.

Lemma groupHostsQuery_answer groupId c :
  groupHostsQuery NodesSignData groupId c = Done (hostsAnswer groupId c).
Proof.
  unfold groupHostsQuery, Client.hostsAnswer. by destruct (rpc_GroupHosts c _).
Qed.

Lemma groupLeaderQuery_answer groupId c r :
  groupLeaderQuery groupId c = Done r → r = leaderAnswer groupId c.
Proof.
  unfold groupLeaderQuery, leaderAnswer.
  destruct (rpc_GetGroupLeader c groupId) as [[node|]|]; by intros [= <-].
Qed.


(** ** The command executor *)

Lemma GetGroupLeader_identity brc groupId leader brc' :
  GetGroupLeader brc groupId = Done (leader, brc') →
  Id brc' = Id brc ∧ PrivateKey brc' = PrivateKey brc.
Proof.
  unfold Client.GetGroupLeader.
  destruct (GroupLeader brc !! _); [by intros [= _ <-]|].
  destruct (MajorityResponse _ _ _) as [res|]; [|done]. simpl.
  destruct res as [[node|]|]; try by intros [= _ <-].
  destruct (GetClusterRPC _); by intros [= _ <-].
Qed.

(** A host list GetGroupHosts returns is the one its cache holds. *)
Lemma GetGroupHosts_cached brc groupId hosts brc' :
  GetGroupHosts brc groupId = Done (Some hosts, brc') →
  GroupHosts brc' !! Itoa (int groupId) = Some hosts.
Proof.
  unfold Client.GetGroupHosts.
  destruct (GroupHosts brc !! _) as [cached|] eqn:Hc; [by intros [= <- <-]|].
  destruct (MajorityResponse _ _ _) as [res|]; [|done]. simpl.
  destruct res as [[nodes|]|]; try done.
  intros [= <- <-]. simpl. apply lookup_insert_eq.
Qed.

(** ExecCommand once leader and hosts are resolved: the leader goroutine is
    started in either case; without hosts the call ends there, with hosts it
    goes on to the [select]. *)
Lemma ExecCommand_resolved brc groupId funcId arg sched leader hosts :
  resolves brc groupId leader hosts →
  ∃ reply cmdReq,
    ExecCommand brc groupId funcId arg sched = Done reply ∧
    submitted brc groupId funcId arg cmdReq ∧
    match hosts with
    | None =>
        result reply = inr errNoHosts ∧
        spawned reply = [GoExecOnLeader leader cmdReq]
    | Some hs =>
        result reply = await (ExpectedPlayers (length hs)) sched ∧
        spawned reply = [GoExecOnLeader leader cmdReq;
                         GoCollect (ExpectedPlayers (length hs)); GoWait] ∧
        GroupHosts (client reply) !! Itoa (int groupId) = Some hs
    end.
Proof.
  intros (brc1 & brc3 & Hleader & Hhosts).
  destruct (GetGroupLeader_identity _ _ _ _ Hleader) as [Hid Hkey].
  cbv zeta in Hhosts.
  unfold Client.ExecCommand. rewrite Hleader. cbn [exec_bind fst snd].
  cbv zeta. rewrite Hhosts. cbn [exec_bind fst snd].
  set (brc1' := set_Counter brc1 (nextCounter brc1)) in *.
  set (cmdReq := signedRequest ExecCommandSignData Sign brc1' groupId
                   (Counter brc1' `mod` 2 ^ 64) funcId arg).
  assert (Hsub : submitted brc groupId funcId arg cmdReq).
  { unfold Client.submitted, cmdReq, signedRequest, brc1'. simpl.
    rewrite Hid, Hkey. done. }
  destruct hosts as [hs|].
  - eexists _, cmdReq. split; [done|]. split; [done|].
    split_and!; [done | done |]. simpl.
    by apply GetGroupHosts_cached in Hhosts.
  - eexists _, cmdReq. split; [done|]. by split.
Qed.

(** A result other than an error means leader and hosts were resolved. *)
Lemma ExecCommand_result_inv brc groupId funcId arg sched reply data :
  ExecCommand brc groupId funcId arg sched = Done reply →
  result reply = inl data →
  ∃ leader hs, resolves brc groupId leader (Some hs) ∧
    GroupHosts (client reply) !! Itoa (int groupId) = Some hs ∧
    await (ExpectedPlayers (length hs)) sched = inl data.
Proof.
  unfold Client.ExecCommand.
  destruct (Client.GetGroupLeader _ _ brc groupId) as [[leader brc1]|] eqn:Hl;
    [|done].
  simpl. destruct leader as [leader|]; [|by intros [= <-]].
  destruct (Client.GetGroupHosts _ _ _ groupId) as [[hosts brc3]|] eqn:Hh;
    [|done].
  simpl. destruct hosts as [hs|]; [|by intros [= <-]].
  intros [= <-] Hres. simpl in Hres. exists leader, hs. split_and!.
  - by exists brc1, brc3.
  - simpl. by apply GetGroupHosts_cached in Hh.
  - done.
Qed.

(** When fewer than [n] deliveries are made before the timer fires, the
    [select] takes the timer case. *)
Lemma await_timeout n sched :
  (length (within_timeout sched) < n)%nat → await n sched = inr errTimeout.
Proof.
  intros Hfew. unfold Client.await.
  destruct (Client.collect _ n _ _ _ _) as [[[rr hs] t]|] eqn:Hc; [|done].
  assert (Hn : (n ≤ length (inbox sched))%nat).
  { apply (collect_Some n (inbox sched) ∅ [] 0). rewrite Hc. eauto. }
  apply collect_result in Hc as (_ & _ & Hall & _).
  destruct (t <? timeout) eqn:Hlt; [|destruct (t =? timeout) eqn:Heq]; simpl.
  - exfalso. apply Z.ltb_lt in Hlt.
    unfold within_timeout in Hfew.
    rewrite <- (take_drop n (inbox sched)), filter_app, length_app in Hfew.
    rewrite (LogFacts.filter_all (λ m : Z * bytes, m.1 ≤ timeout)) in Hfew.
    + rewrite length_take in Hfew. lia.
    + eapply Forall_impl; [exact Hall|]. simpl. intros m ?. lia.
  - destruct (tie_completed sched); [|done].
    exfalso. apply Z.eqb_eq in Heq.
    unfold within_timeout in Hfew.
    rewrite <- (take_drop n (inbox sched)), filter_app, length_app in Hfew.
    rewrite (LogFacts.filter_all (λ m : Z * bytes, m.1 ≤ timeout)) in Hfew.
    + rewrite length_take in Hfew. lia.
    + eapply Forall_impl; [exact Hall|]. simpl. intros m ?. lia.
  - done.
Qed.

(** What the completion case returns. *)
Lemma await_result n sched data :
  await n sched = inl data →
  let got := collected n sched in
  length got = n ∧
  data = default [] (last (filter
           (λ res, HashData res = PickMajority (HashData <$> got)) got)).
Proof.
  intros Hres got. unfold Client.await in Hres.
  destruct (Client.collect _ n _ _ _ _) as [[[rr hs] t]|] eqn:Hc; [|done].
  assert (Hn : (n ≤ length (inbox sched))%nat).
  { apply (collect_Some n (inbox sched) ∅ [] 0). rewrite Hc. eauto. }
  apply collect_result in Hc as (-> & _ & _ & Hrr).
  split.
  - unfold got, collected. rewrite length_take, length_fmap. lia.
  - destruct (_ || _); [|done]. inversion Hres as [Hd]. simpl.
    rewrite Hrr, lookup_empty. fold (collected n sched). fold got.
    by destruct (last (filter _ got)).
Qed.

(** Whenever the quorum query has no result, GroupExists panics on the
    type assertion. *)
Lemma GroupExists_no_majority brc groupId :
  MajorityResponse HashData (AlphaRPCs brc) (groupExistsQuery groupId) = Done None →
  GroupExists brc groupId
    = Panic "interface conversion: interface {} is nil, not bool".
Proof. intros HM. unfold Client.GroupExists. by rewrite HM. Qed.

(** C2 (amended). A result is returned only after exactly
    [ExpectedPlayers (length hosts)] responses were collected. The bytes
    returned are those kept under the hash PickMajority selects: when that
    hash is the hash of a collected response, the result is a collected
    response with that hash, and as many collected responses are hash-equal
    to it as the selected hash occurs (at least one); otherwise the result
    is empty. *)
Theorem ExecCommand_result_from_collected
    brc groupId funcId arg sched reply hosts data :
  ExecCommand brc groupId funcId arg sched = Done reply →
  GroupHosts (client reply) !! Itoa (int groupId) = Some hosts →
  result reply = inl data →
  let n := ExpectedPlayers (length hosts) in
  let got := collected n sched in
  let picked := PickMajority (HashData <$> got) in
  length got = n ∧
  (picked ∈ HashData <$> got →
     data ∈ got ∧ HashData data = picked ∧
     hash_equal_count data got = count_of picked (HashData <$> got) ∧
     (0 < hash_equal_count data got)%nat) ∧
  (picked ∉ HashData <$> got → data = []).
Proof.
  intros Hrun Hcache Hres n got picked.
  destruct (ExecCommand_result_inv _ _ _ _ _ _ _ Hrun Hres)
    as (leader & hs & _ & Hcache' & Hawait).
  rewrite Hcache in Hcache'. inversion Hcache'; subst hs.
  apply await_result in Hawait as [Hlen Hdata].
  fold n in Hlen, Hdata. fold got in Hlen, Hdata. fold picked in Hdata.
  split; [done|]. split.
  - intros Hin. apply list_elem_of_fmap in Hin as (res & Hh & Hres_in).
    assert (Hne : res ∈ filter (λ r, HashData r = picked) got)
      by (by apply list_elem_of_filter).
    destruct (last (filter (λ r, HashData r = picked) got)) as [d|] eqn:Hlast.
    + simpl in Hdata. subst d.
      apply last_Some in Hlast as [l' Hl'].
      assert (Hd : data ∈ filter (λ r, HashData r = picked) got).
      { rewrite Hl'. apply elem_of_app. right. by left. }
      apply list_elem_of_filter in Hd as [Hdh Hdin].
      assert (Hcount : hash_equal_count data got
                       = count_of picked (HashData <$> got)).
      { unfold Client.hash_equal_count, count_of.
        rewrite filter_length_fmap, Hdh. done. }
      split_and!; [done | done | done |].
      unfold Client.hash_equal_count. rewrite Hdh, Hl', length_app. simpl. lia.
    + apply last_None in Hlast. rewrite Hlast in Hne.
      by apply elem_of_nil in Hne.
  - intros Hnotin.
    destruct (last (filter (λ r, HashData r = picked) got)) as [d|] eqn:Hlast;
      [|done].
    exfalso. apply Hnotin.
    apply last_Some in Hlast as [l' Hl'].
    assert (Hd : d ∈ filter (λ r, HashData r = picked) got).
    { rewrite Hl'. apply elem_of_app. right. by left. }
    apply list_elem_of_filter in Hd as [Hdh Hdin].
    apply list_elem_of_fmap. by exists d.
Qed.

(** C8. Once leader and hosts are resolved, if fewer than
    [ExpectedPlayers (length hosts)] results reach the inbox before the
    ten-second timer fires, ExecCommand returns the error "does not receive
    enough response" and no result bytes. *)
Theorem ExecCommand_timeout brc groupId funcId arg sched leader hosts :
  resolves brc groupId leader (Some hosts) →
  (length (within_timeout sched) < ExpectedPlayers (length hosts))%nat →
  ∃ reply, ExecCommand brc groupId funcId arg sched = Done reply ∧
           result reply = inr errTimeout.
Proof.
  intros Hres Hfew.
  destruct (ExecCommand_resolved brc groupId funcId arg sched _ _ Hres)
    as (reply & cmdReq & Hrun & _ & Hresult & _).
  exists reply. split; [done|]. rewrite Hresult. by apply await_timeout.
Qed.

(** C10. When the leader is resolved and the host list is not, ExecCommand
    returns the error "cannot get group hosts", and by then it has started
    the goroutine that sends the signed request to the leader. *)
Theorem ExecCommand_NoHosts_after_submission
    brc groupId funcId arg sched leader :
  resolves brc groupId leader None →
  ∃ reply cmdReq,
    ExecCommand brc groupId funcId arg sched = Done reply ∧
    result reply = inr errNoHosts ∧
    spawned reply = [GoExecOnLeader leader cmdReq] ∧
    submitted brc groupId funcId arg cmdReq.
Proof.
  intros Hres.
  destruct (ExecCommand_resolved brc groupId funcId arg sched _ _ Hres)
    as (reply & cmdReq & Hrun & Hsub & Hresult & Hspawn).
  by exists reply, cmdReq.
Qed.

End Facts.

(** ** The examples *)

Local Abbreviation ExecCommand_ex :=
  (ExecCommand HashData_poly NodesSignData_addrs dial_all
     ExecCommandSignData_fields Sign_concat PickMajority_plurality
     ExpectedPlayers_bft).

(** Scenario 2 with the deviating reply arriving first: the matching bytes
    are returned. *)
Example exec_byzantine_first :
  (r ← ExecCommand_ex client3 7 42 [xaa] sched_byzantine_first ;;;
   Done (result r)) = Done (inl [x01; x02]).
Proof. vm_compute. reflexivity. Qed.

(** Scenario 4: one reply within ten seconds. *)
Example exec_one_reply :
  (r ← ExecCommand_ex client3 7 42 [xaa] sched_one_reply ;;;
   Done (result r)) = Done (inr errTimeout).
Proof. vm_compute. reflexivity. Qed.

(** C2 (amended), at four hosts with the byzantine reply delivered first:
    three responses are collected and the result is the one kept under the
    selected hash. *)
Lemma ExecCommand_result_from_collected_witness :
  ∃ reply,
    ExecCommand_ex client3 7 42 [xaa] sched_byzantine_first = Done reply ∧
    GroupHosts (client reply) !! Itoa (int 7) = Some hosts4 ∧
    result reply = inl [x01; x02] ∧
    let got := collected (ExpectedPlayers_bft (length hosts4))
                 sched_byzantine_first in
    let picked := PickMajority_plurality (HashData_poly <$> got) in
    length got = ExpectedPlayers_bft (length hosts4) ∧
    (picked ∈ HashData_poly <$> got →
       [x01; x02] ∈ got ∧ HashData_poly [x01; x02] = picked ∧
       hash_equal_count HashData_poly [x01; x02] got
         = count_of picked (HashData_poly <$> got) ∧
       (0 < hash_equal_count HashData_poly [x01; x02] got)%nat) ∧
    (picked ∉ HashData_poly <$> got → [x01; x02] = []).
Proof.
  eexists. split; [vm_compute; reflexivity|].
  split; [vm_compute; reflexivity|]. split; [reflexivity|].
  eapply (ExecCommand_result_from_collected HashData_poly NodesSignData_addrs
            dial_all ExecCommandSignData_fields Sign_concat
            PickMajority_plurality ExpectedPlayers_bft
            client3 7 42 [xaa] sched_byzantine_first);
    vm_compute; reflexivity.
Defined.

(** C2 (as stated) fails. Four hosts, so three responses are awaited; the
    collector receives [0x99], then [0x01 0x02] twice. ExecCommand returns
    [0x01 0x02], to which two of the three collected responses are
    hash-equal: fewer than the three the claim requires. *)
Lemma ExecCommand_result_below_quorum :
  ¬ claimed_result_quorum HashData_poly NodesSignData_addrs dial_all
      ExecCommandSignData_fields Sign_concat PickMajority_plurality
      ExpectedPlayers_bft client3 7 42 [xaa] sched_byzantine_first.
Proof.
  unfold claimed_result_quorum. intros Hclaim.
  destruct (ExecCommand_ex client3 7 42 [xaa] sched_byzantine_first)
    as [reply|] eqn:Hrun; [|vm_compute in Hrun; discriminate].
  assert (Hhosts : GroupHosts (client reply) !! Itoa (int 7) = Some hosts4).
  { vm_compute in Hrun. inversion Hrun; subst reply. vm_compute. reflexivity. }
  assert (Hres : result reply = inl [x01; x02]).
  { vm_compute in Hrun. inversion Hrun; subst reply. reflexivity. }
  specialize (Hclaim reply hosts4 [x01; x02] eq_refl Hhosts Hres).
  vm_compute in Hclaim. lia.
Qed.

(** The three alpha clients of [client3] answer alike, so the stand-in hash
    tells their canonical bytes apart. *)
Lemma client3_collision_free :
  collision_free HashData_poly
    (hostsCanonical NodesSignData_addrs 7 <$> AlphaRPCs client3) ∧
  collision_free HashData_poly (leaderCanonical 7 <$> AlphaRPCs client3).
Proof.
  split; intros b1 b2 H1 H2 _.
  - change (hostsCanonical NodesSignData_addrs 7 <$> AlphaRPCs client3)
      with (replicate 3 (NodesSignData_addrs hosts4)) in H1, H2.
    apply elem_of_replicate in H1 as [-> _].
    by apply elem_of_replicate in H2 as [-> _].
  - change (leaderCanonical 7 <$> AlphaRPCs client3)
      with (replicate 3 (String.list_byte_of_string (ServerAddr hostA)))
      in H1, H2.
    apply elem_of_replicate in H1 as [-> _].
    by apply elem_of_replicate in H2 as [-> _].
Qed.


(** On [client3] the leader of group 7 and its four hosts are resolved. *)
Lemma client3_resolves :
  ∃ leader, resolves HashData_poly NodesSignData_addrs dial_all
              client3 7 leader (Some hosts4).
Proof.
  unfold resolves.
  let v := eval vm_compute in
    (GetGroupLeader HashData_poly dial_all client3 7) in
  match v with
  | Done (Some ?l, ?b1) => exists l, b1
  end.
  eexists. split; [vm_compute; reflexivity|].
  vm_compute. reflexivity.
Qed.

(** On [client_nohosts] the leader of group 7 is resolved, its hosts are
    not. *)
Lemma client_nohosts_resolves :
  ∃ leader, resolves HashData_poly NodesSignData_addrs dial_all
              client_nohosts 7 leader None.
Proof.
  unfold resolves.
  let v := eval vm_compute in
    (GetGroupLeader HashData_poly dial_all client_nohosts 7) in
  match v with
  | Done (Some ?l, ?b1) => exists l, b1
  end.
  eexists. split; [vm_compute; reflexivity|].
  vm_compute. reflexivity.
Qed.

(** C8, at four hosts and a single reply within the ten seconds. *)
Lemma ExecCommand_timeout_witness :
  (∃ leader, resolves HashData_poly NodesSignData_addrs dial_all
               client3 7 leader (Some hosts4)) ∧
  (length (within_timeout sched_one_reply)
     < ExpectedPlayers_bft (length hosts4))%nat ∧
  ∃ reply, ExecCommand_ex client3 7 42 [xaa] sched_one_reply = Done reply ∧
           result reply = inr errTimeout.
Proof.
  pose proof client3_resolves as Hres.
  assert (Hfew : (length (within_timeout sched_one_reply)
                    < ExpectedPlayers_bft (length hosts4))%nat)
    by (vm_compute; lia).
  split; [exact Hres|]. split; [exact Hfew|].
  destruct Hres as [leader Hres].
  exact (ExecCommand_timeout HashData_poly NodesSignData_addrs dial_all
           ExecCommandSignData_fields Sign_concat PickMajority_plurality
           ExpectedPlayers_bft client3 7 42 [xaa] sched_one_reply
           leader hosts4 Hres Hfew).
Defined.

(** C10, at a client whose alpha clients name a leader and fail the host
    query. *)
Lemma ExecCommand_NoHosts_after_submission_witness :
  ∃ leader,
    resolves HashData_poly NodesSignData_addrs dial_all
      client_nohosts 7 leader None ∧
    ∃ reply cmdReq,
      ExecCommand_ex client_nohosts 7 42 [xaa] sched_one_reply = Done reply ∧
      result reply = inr errNoHosts ∧
      spawned reply = [GoExecOnLeader leader cmdReq] ∧
      submitted ExecCommandSignData_fields Sign_concat
        client_nohosts 7 42 [xaa] cmdReq.
Proof.
  destruct client_nohosts_resolves as [leader Hres]. exists leader. split; [exact Hres|].
  exact (ExecCommand_NoHosts_after_submission HashData_poly NodesSignData_addrs
           dial_all ExecCommandSignData_fields Sign_concat
           PickMajority_plurality ExpectedPlayers_bft
           client_nohosts 7 42 [xaa] sched_one_reply leader Hres).
Defined.

(** C5: two alpha clients are polled, one holds the group and one fails the
    call. Each canonical byte is held by one client of two, no hash has a
    strict majority, the quorum query returns nil and the type assertion
    panics. The same happens with no alpha client at all. *)
Theorem GroupExists_panics_without_majority :
  GroupExists HashData_poly client_split 7
    = Panic "interface conversion: interface {} is nil, not bool" ∧
  GroupExists HashData_poly (newClient []) 7
    = Panic "interface conversion: interface {} is nil, not bool".
Proof. split; vm_compute; reflexivity. Qed.

(** With a majority the assertion goes through. *)
Example GroupExists_agreed :
  GroupExists HashData_poly client3 7 = Done true.
Proof. vm_compute. reflexivity. Qed.

End ClientFacts.

(* ===================================================================== *)
(** * The uncommitted range on arbitrary logs                             *)
(* ===================================================================== *)

Module RangeFacts.
Import Log LogFacts.

(** Two ways of cutting one list: the shorter front is a front of the
    longer one. *)
Lemma app_eq_cut {A} (l1 l2 k1 k2 : list A) :
  l1 ++ l2 = k1 ++ k2 →
  (∃ m, l1 = k1 ++ m ∧ k2 = m ++ l2) ∨ (∃ m, k1 = l1 ++ m ∧ l2 = m ++ k2).
Proof.
  revert k1. induction l1 as [|x l1 IH]; intros k1 Heq; simpl in Heq.
  - right. exists k1. by rewrite Heq.
  - destruct k1 as [|y k1]; simpl in Heq.
    + left. exists (x :: l1). by rewrite <- Heq.
    + inversion Heq as [[Hxy Hrest]]. subst y.
      destruct (IH _ Hrest) as [(m & -> & ->)|(m & -> & ->)].
      * left. by exists m.
      * right. by exists m.
Qed.

(** X1. On any log, dense or not, the log splits as [pre ++ entries] where
    [entries] is returned in log order and holds only entries at or above
    the next index; the anchor is the entry right before the returned ones,
    which lies below the next index, and when there is none it is the first
    returned entry, or the sentinel if nothing is returned either. *)
Theorem uncommitted_range_shape log k :
  let entries := (PeerUncommittedLogEntries (ReversedLogIterator log) k).1 in
  let prev := (PeerUncommittedLogEntries (ReversedLogIterator log) k).2 in
  ∃ pre,
    log = pre ++ entries ∧
    Forall (λ e, k ≤ Index e) entries ∧
    match last pre with
    | Some e => prev = e ∧ Index e < k
    | None => prev = default sentinel (head entries)
    end.
Proof.
  destruct (uncommitted_split log k) as (hi & lo & Hlog & Hhi & Hlo & Heq).
  rewrite Heq. simpl. exists (reverse lo). split_and!; [done | done |].
  rewrite last_reverse. destruct lo as [|e lo']; simpl; [|done].
  by rewrite head_reverse.
Qed.

(** X2. The sentinel anchor is handed out for the empty log only: on the
    empty log the result is no entry and the sentinel, on any other log the
    anchor is one of the log's own entries, whatever the next index. *)
Theorem uncommitted_anchor_from_log log k :
  (log = [] →
     PeerUncommittedLogEntries (ReversedLogIterator log) k = ([], sentinel)) ∧
  (log ≠ [] →
     (PeerUncommittedLogEntries (ReversedLogIterator log) k).2 ∈ log).
Proof.
  split; [by intros ->|]. intros Hne.
  destruct (uncommitted_split log k) as (hi & lo & Hlog & _ & _ & Heq).
  rewrite Heq. simpl. rewrite Hlog. destruct lo as [|e lo'].
  - simpl. destruct (last hi) as [x|] eqn:Hlast; simpl.
    + apply last_Some_elem_of in Hlast. by apply elem_of_reverse.
    + apply last_None in Hlast. subst hi. by rewrite Hlog in Hne.
  - apply elem_of_app. left. apply elem_of_reverse. by left.
Qed.

(** X3. Raising the next index only cuts entries off the front of the
    result: for [k <= k'] the entries returned for [k'] are a suffix of
    those returned for [k], on any log. *)
Theorem uncommitted_range_antitone log k k' :
  k ≤ k' →
  ∃ dropped,
    (PeerUncommittedLogEntries (ReversedLogIterator log) k).1 =
      dropped ++ (PeerUncommittedLogEntries (ReversedLogIterator log) k').1.
Proof.
  intros Hk.
  destruct (uncommitted_split log k) as (hi & lo & Hlog & Hhi & Hlo & ->).
  destruct (uncommitted_split log k') as (hi' & lo' & Hlog' & Hhi' & Hlo' & ->).
  simpl. rewrite Hlog' in Hlog.
  destruct (app_eq_cut _ _ _ _ Hlog) as [(m & Hpre & Hent)|(m & Hpre & Hent)].
  - by exists m.
  - destruct m as [|x m]; [exists []; by rewrite Hent|]. exfalso.
    (* the last entry before the range of [k] would lie in the range of [k'] *)
    destruct lo as [|e lo0].
    { apply (f_equal length) in Hpre.
      rewrite length_app, !length_reverse in Hpre. simpl in Hpre. lia. }
    assert (Hin : e ∈ reverse hi').
    { rewrite Hent. apply elem_of_app. left.
      assert (Hl : last (reverse (e :: lo0)) = Some e)
        by (by rewrite last_reverse).
      rewrite Hpre in Hl. rewrite last_app in Hl.
      destruct (last (x :: m)) as [y|] eqn:Hy.
      - inversion Hl; subst y. by apply last_Some_elem_of.
      - by apply last_None in Hy. }
    rewrite Forall_forall in Hhi'. specialize (Hhi' _ Hin). simpl in Hlo. lia.
Qed.

(** X3, at the five-entry log with next indices 2 and 4. *)
Lemma uncommitted_range_antitone_witness :
  ∃ dropped,
    (PeerUncommittedLogEntries (ReversedLogIterator log5) 2).1 =
      dropped ++ (PeerUncommittedLogEntries (ReversedLogIterator log5) 4).1.
Proof. apply uncommitted_range_antitone. lia. Defined.

(** X4. The swap loop that closes PeerUncommittedLogEntries reverses its
    slice: slot [i] ends up holding what slot [len - 1 - i] held, the
    length is kept, and running it twice gives the slice back. *)
Theorem reverse_in_place_mirrors entries :
  length (reverse_in_place entries) = length entries ∧
  (∀ i : nat, (i < length entries)%nat →
     reverse_in_place entries !! i = entries !! (length entries - 1 - i)%nat) ∧
  reverse_in_place (reverse_in_place entries) = entries.
Proof.
  rewrite !reverse_in_place_reverse. split_and!.
  - apply length_reverse.
  - intros i Hi. rewrite reverse_lookup by done. f_equal. lia.
  - apply reverse_involutive.
Qed.

End RangeFacts.

(* ===================================================================== *)
(** * The peer directory: cache keys, GetPeer, GetGroupPeers,
      GroupServerPeer and the dispatcher's request                        *)
(* ===================================================================== *)

Module DirectoryFacts.
Import Log LogFacts Server ServerFacts.

(** ** Cache keys *)

Lemma pretty_N_go_no_dash x : ∀ s,
  string_has dash s = false → string_has dash (pretty_N_go x s) = false.
Proof.
  induction (N.lt_wf_0 x) as [x _ IH]; intros s Hs.
  destruct (decide (x = 0)%N) as [->|Hx]; [by rewrite pretty_N_go_0|].
  rewrite pretty_N_go_step by lia.
  apply IH; [apply N.div_lt; lia|].
  pose proof (N.mod_upper_bound x 10) as Hmod.
  simpl. unfold pretty_N_char.
  repeat case_match; try done; lia.
Qed.

Lemma pretty_Z_no_dash (z : Z) : 0 ≤ z → string_has dash (pretty z) = false.
Proof.
  intros Hz. destruct z as [|p|p]; [done | | lia].
  unfold pretty, pretty_Z, pretty, pretty_positive, pretty, pretty_N.
  case_decide; [done|]. by apply pretty_N_go_no_dash.
Qed.

Lemma append_dash_inj s1 : ∀ s2 t1 t2,
  string_has dash s1 = false → string_has dash s2 = false →
  s1 +:+ "-" +:+ t1 = s2 +:+ "-" +:+ t2 → s1 = s2 ∧ t1 = t2.
Proof.
  induction s1 as [|a s1 IH]; intros [|b s2] t1 t2 H1 H2 Heq; simpl in *.
  - by inversion Heq.
  - inversion Heq; subst b. by case_decide.
  - inversion Heq; subst a. by case_decide.
  - inversion Heq; subst b. case_decide; [done|].
    destruct (IH s2 t1 t2) as [-> ->]; done.
Qed.

(** X5. The key of the peer cache tells the pairs (group, peer id) apart:
    two pairs of unsigned numbers with the same key are the same pair. *)
Theorem peerCacheKey_inj g1 p1 g2 p2 :
  0 ≤ g1 → 0 ≤ p1 → 0 ≤ g2 → 0 ≤ p2 →
  peerCacheKey g1 p1 = peerCacheKey g2 p2 → g1 = g2 ∧ p1 = p2.
Proof.
  intros Hg1 Hp1 Hg2 Hp2 Heq. unfold peerCacheKey in Heq.
  apply append_dash_inj in Heq as [Hg Hp]; [|by apply pretty_Z_no_dash..].
  split; by apply (inj pretty).
Qed.

(** X5, at group 1 and peer 7. *)
Lemma peerCacheKey_inj_witness :
  peerCacheKey 1 7 = peerCacheKey 1 7 ∧ (1 = 1 ∧ 7 = 7).
Proof.
  split; [reflexivity|].
  apply (peerCacheKey_inj 1 7 1 7); [lia | lia | lia | lia | reflexivity].
Defined.

(** X6. The key of the group caches, [strconv.Itoa(int(group))], tells the
    64-bit group ids apart, although the conversion to [int] sends the upper
    half of the range to negative numbers. *)
Theorem group_cache_key_inj g1 g2 :
  0 ≤ g1 < 2 ^ 64 → 0 ≤ g2 < 2 ^ 64 →
  Itoa (int g1) = Itoa (int g2) → g1 = g2.
Proof.
  intros H1 H2 Heq. apply (inj pretty) in Heq. unfold int in Heq.
  rewrite !Z.mod_small in Heq by done.
  destruct (Z.ltb_spec g1 (2 ^ 63)), (Z.ltb_spec g2 (2 ^ 63)); lia.
Qed.

(** X6, at the largest group id, whose key is "-1". *)
Lemma group_cache_key_inj_witness :
  Itoa (int (2 ^ 64 - 1)) = "-1" ∧ 2 ^ 64 - 1 = 2 ^ 64 - 1.
Proof.
  split; [reflexivity|].
  apply (group_cache_key_inj (2 ^ 64 - 1) (2 ^ 64 - 1)); [lia | lia | reflexivity].
Defined.

Section Facts.

Variable GROUP_PEERS : byte.
Variable Unmarshal : bytes → Peer * option error.
Variable GetNode : Z → option Node.
Variable ClusterClients_Get : string → option Client * option error.
Variable AppendLogEntrySignData : Z → Z → Z → Z → bytes.
Variable Sign : bytes → bytes.

Local Abbreviation GetPeer := (Server.GetPeer GROUP_PEERS Unmarshal).
Local Abbreviation GetGroupPeers := (Server.GetGroupPeers GROUP_PEERS Unmarshal).
Local Abbreviation GroupServerPeer :=
  (Server.GroupServerPeer GROUP_PEERS Unmarshal).
Local Abbreviation SendPeerUncommittedLogEntries :=
  (Server.SendPeerUncommittedLogEntries GetNode ClusterClients_Get
     AppendLogEntrySignData Sign).

(** ** GetPeer *)

(** X7. Asking GetPeer again changes nothing: the second call gives the
    answer of the first and leaves the server as the first left it. *)
Theorem GetPeer_twice s group peer_id :
  GetPeer (GetPeer s group peer_id).2 group peer_id = GetPeer s group peer_id.
Proof.
  unfold Server.GetPeer.
  destruct (Peers s !! peerCacheKey group peer_id) as [cached|] eqn:Hc; simpl.
  { by rewrite Hc. }
  destruct (DB_Get (DB s) _) as [data|] eqn:Hd; simpl.
  - by rewrite lookup_insert_eq.
  - by rewrite Hc, Hd.
Qed.

(** X8. GetPeer writes nothing but one entry of the peer cache: the store,
    the group cache, the logs and the server id are as before, every other
    key of the peer cache holds what it held, and an entry already in the
    cache is never replaced. *)
Theorem GetPeer_frame s group peer_id :
  let s' := (GetPeer s group peer_id).2 in
  DB s' = DB s ∧ GroupsPeers s' = GroupsPeers s ∧ Logs s' = Logs s ∧
  Id s' = Id s ∧
  (∀ key, key ≠ peerCacheKey group peer_id →
     Peers s' !! key = Peers s !! key) ∧
  (∀ key peer, Peers s !! key = Some peer → Peers s' !! key = Some peer).
Proof.
  unfold Server.GetPeer.
  destruct (Peers s !! peerCacheKey group peer_id) as [cached|] eqn:Hc; simpl.
  { by split_and!. }
  destruct (DB_Get (DB s) _) as [data|]; simpl; [|by split_and!].
  split_and!; try done.
  - intros key Hkey. by rewrite lookup_insert_ne.
  - intros key peer Hk. rewrite lookup_insert_ne; [done|].
    intros <-. by rewrite Hc in Hk.
Qed.

(** ** GetGroupPeers *)

(** X9. On a miss of the group cache GetGroupPeers returns exactly when no
    row of the store lies under the group's prefix: then it answers the
    empty list at once and caches it; with a row under the prefix no number
    of rounds lets it return. *)
Theorem GetGroupPeers_returns_iff_no_row s group :
  GroupsPeers s !! Itoa (int group) = None →
  let keyPrefix := ComposeKeyPrefix group GROUP_PEERS in
  let iter := Seek (NewIterator (DB s)) (keyPrefix ++ U64Bytes 0) in
  (ValidForPrefix iter keyPrefix = true →
     ∀ fuel, GetGroupPeers fuel s group = None) ∧
  (ValidForPrefix iter keyPrefix = false →
     ∀ fuel, GetGroupPeers (S fuel) s group =
       Some ([], set_GroupsPeers s (<[Itoa (int group) := []]> (GroupsPeers s)))).
Proof.
  intros Hmiss keyPrefix iter. unfold Server.GetGroupPeers. rewrite Hmiss.
  fold keyPrefix. fold iter. split; intros Hvalid fuel.
  - by rewrite GetGroupPeers_loop_stuck.
  - by rewrite GetGroupPeers_loop_empty.
Qed.

(** X10. Whatever GetGroupPeers returned it returns again, from the cache:
    the second call needs no round of the loop and changes nothing. *)
Theorem GetGroupPeers_twice fuel s group peers s' :
  GetGroupPeers fuel s group = Some (peers, s') →
  ∀ fuel', GetGroupPeers fuel' s' group = Some (peers, s').
Proof.
  unfold Server.GetGroupPeers.
  destruct (GroupsPeers s !! Itoa (int group)) as [cached|] eqn:Hc.
  - intros [= <- <-] fuel'. by rewrite Hc.
  - destruct (GetGroupPeers_loop _ _ _ _ _ _ _ _) as [[ps s1]|]; [|done].
    intros [= <- <-] fuel'. simpl. by rewrite lookup_insert_eq.
Qed.

(** ** GroupServerPeer *)

(** What the [range] loop answers: it walks over the peers hosted
    elsewhere and stops at the first entry that is nil or hosted here. *)
Lemma GroupServerPeer_range_split id : ∀ peers,
  ∃ pre rest,
    peers = (Some <$> pre) ++ rest ∧
    Forall (λ p, Host p ≠ id) pre ∧
    match rest with
    | [] => GroupServerPeer_range id peers = Done None
    | None :: _ =>
        GroupServerPeer_range id peers
          = Panic "invalid memory address or nil pointer dereference"
    | Some p :: _ => Host p = id ∧ GroupServerPeer_range id peers = Done (Some p)
    end.
Proof.
  induction peers as [|[p|] peers IH]; simpl.
  - by exists [], [].
  - destruct (Z.eqb_spec (Host p) id) as [Heq|Hne].
    + exists [], (Some p :: peers). by split_and!.
    + destruct IH as (pre & rest & -> & Hpre & Hrest).
      exists (p :: pre), rest. split_and!; [done | by constructor | done].
  - exists [], (None :: peers). by split_and!.
Qed.

(** X11. With the group's peers in the cache, GroupServerPeer leaves the
    server as it is and answers the first cached peer hosted by this
    server; it answers nil when every cached peer is hosted elsewhere, and
    panics when a nil entry comes before any peer hosted here. *)
Theorem GroupServerPeer_cached fuel s groupId peers :
  GroupsPeers s !! Itoa (int groupId) = Some peers →
  ∃ r pre rest,
    GroupServerPeer fuel s groupId = Some (r, s) ∧
    peers = (Some <$> pre) ++ rest ∧
    Forall (λ p, Host p ≠ Id s) pre ∧
    match rest with
    | [] => r = Done None
    | None :: _ => r = Panic "invalid memory address or nil pointer dereference"
    | Some p :: _ => Host p = Id s ∧ r = Done (Some p)
    end.
Proof.
  intros Hc. unfold Server.GroupServerPeer, Server.GetGroupPeers. rewrite Hc.
  destruct (GroupServerPeer_range_split (Id s) peers)
    as (pre & rest & Hsplit & Hpre & Hrest).
  exists (GroupServerPeer_range (Id s) peers), pre, rest.
  split_and!; [done | done | done |].
  destruct rest as [|[p|] rest']; done.
Qed.

(** X12. On a miss of the group cache GroupServerPeer finds no peer: if it
    returns at all, the store has no row for the group, the answer is nil
    and the empty list is what the group cache then holds. *)
Theorem GroupServerPeer_miss_finds_nothing fuel s groupId r s' :
  GroupsPeers s !! Itoa (int groupId) = None →
  GroupServerPeer fuel s groupId = Some (r, s') →
  r = Done None ∧ GroupsPeers s' !! Itoa (int groupId) = Some [].
Proof.
  intros Hmiss. unfold Server.GroupServerPeer, Server.GetGroupPeers.
  rewrite Hmiss.
  destruct (ValidForPrefix
              (Seek (NewIterator (DB s))
                 (ComposeKeyPrefix groupId GROUP_PEERS ++ U64Bytes 0))
              (ComposeKeyPrefix groupId GROUP_PEERS)) eqn:Hvalid.
  - by rewrite GetGroupPeers_loop_stuck.
  - destruct fuel as [|fuel]; [done|].
    rewrite GetGroupPeers_loop_empty by done.
    intros [= <- <-]. simpl. split; [done|]. apply lookup_insert_eq.
Qed.

(** ** The dispatcher's request *)

(** X13. A goroutine the dispatcher starts is the only one it starts, and
    the request it sends is consistent: it names this server as leader and
    the group's id and term, its entries are the uncommitted range of the
    group's log for the peer's next index, each at or above that index, its
    previous index and term are those of the range's anchor, and its
    signature is over exactly the group id, term, previous index and
    previous term it carries. *)
Theorem dispatched_request_consistent s group peer client req :
  GoAppendEntries client req
    ∈ SendPeerUncommittedLogEntries s group peer →
  let range := PeerUncommittedLogEntries
                 (ReversedLogIterator (Logs s (Group_Id group)))
                 (NextIndex peer) in
  SendPeerUncommittedLogEntries s group peer = [GoAppendEntries client req] ∧
  AE_LeaderId req = Id s ∧ AE_Group req = Group_Id group ∧
  AE_Term req = Group_Term group ∧ AE_QuorumVotes req = [] ∧
  AE_Entries req = range.1 ∧
  Forall (λ e, NextIndex peer ≤ Index e) (AE_Entries req) ∧
  AE_PrevLogIndex req = Index range.2 ∧ AE_PrevLogTerm req = Term range.2 ∧
  AE_Signature req =
    Sign (AppendLogEntrySignData (AE_Group req) (AE_Term req)
            (AE_PrevLogIndex req) (AE_PrevLogTerm req)).
Proof.
  intros Hin range. unfold Server.SendPeerUncommittedLogEntries in *.
  destruct (GetNode (Host peer)) as [node|]; [|by apply elem_of_nil in Hin].
  destruct (ClusterClients_Get (ServerAddr node)) as [cl [err|]];
    [|by apply elem_of_nil in Hin].
  destruct (uncommitted_split (Logs s (Group_Id group)) (NextIndex peer))
    as (hi & lo & _ & Hhi & _ & Heq).
  unfold range. rewrite Heq in *. simpl in *.
  apply list_elem_of_singleton in Hin. inversion Hin; subst. simpl.
  by split_and!.
Qed.

End Facts.

(** ** At the example servers *)

(** X9, at [server1] and group 2, which has no peer row. *)
Lemma GetGroupPeers_returns_iff_no_row_witness :
  GroupsPeers server1 !! Itoa (int 2) = None ∧
  GetGroupPeers table_GROUP_PEERS Unmarshal_varint 1 server1 2 =
    Some ([], set_GroupsPeers server1
                (<[Itoa (int 2) := []]> (GroupsPeers server1))).
Proof.
  split; [reflexivity|].
  destruct (GetGroupPeers_returns_iff_no_row table_GROUP_PEERS Unmarshal_varint
              server1 2 eq_refl) as [_ Hempty].
  exact (Hempty eq_refl 0%nat).
Defined.

(** X10, at [server1] and group 2. *)
Lemma GetGroupPeers_twice_witness :
  ∃ s', GetGroupPeers table_GROUP_PEERS Unmarshal_varint 1 server1 2
          = Some ([], s') ∧
        GetGroupPeers table_GROUP_PEERS Unmarshal_varint 0 s' 2 = Some ([], s').
Proof.
  eexists. split; [reflexivity|].
  exact (GetGroupPeers_twice table_GROUP_PEERS Unmarshal_varint
           1 server1 2 [] _ eq_refl 0%nat).
Defined.

(** X11, at [server1_cached] and group 1. *)
Lemma GroupServerPeer_cached_witness :
  GroupsPeers server1_cached !! Itoa (int 1)
    = Some [Some (mkPeer 5 4 1); Some peer7] ∧
  ∃ r pre rest,
    GroupServerPeer table_GROUP_PEERS Unmarshal_varint 0 server1_cached 1
      = Some (r, server1_cached) ∧
    [Some (mkPeer 5 4 1); Some peer7] = (Some <$> pre) ++ rest ∧
    Forall (λ p, Host p ≠ Id server1_cached) pre ∧
    match rest with
    | [] => r = Done None
    | None :: _ => r = Panic "invalid memory address or nil pointer dereference"
    | Some p :: _ => Host p = Id server1_cached ∧ r = Done (Some p)
    end.
Proof.
  split; [reflexivity|].
  exact (GroupServerPeer_cached table_GROUP_PEERS Unmarshal_varint
           0 server1_cached 1 _ eq_refl).
Defined.

(** The peer of group 1 hosted by [server1_cached] is peer 7. *)
Example GroupServerPeer_finds_peer7 :
  GroupServerPeer table_GROUP_PEERS Unmarshal_varint 0 server1_cached 1
    = Some (Done (Some peer7), server1_cached).
Proof. reflexivity. Qed.

(** X12, at [server1] and group 2. *)
Lemma GroupServerPeer_miss_finds_nothing_witness :
  GroupsPeers server1 !! Itoa (int 2) = None ∧
  ∃ s', GroupServerPeer table_GROUP_PEERS Unmarshal_varint 1 server1 2
          = Some (Done None, s') ∧
        GroupsPeers s' !! Itoa (int 2) = Some [].
Proof.
  split; [reflexivity|]. eexists. split; [reflexivity|].
  exact (proj2 (GroupServerPeer_miss_finds_nothing table_GROUP_PEERS
                  Unmarshal_varint 1 server1 2 _ _ eq_refl eq_refl)).
Defined.

(** X13, at peer 7 of group 1 with a pool that reaches no address. *)
Lemma dispatched_request_consistent_witness :
  ∃ req,
    SendPeerUncommittedLogEntries GetNode_9 pool_unreachable signData_concat
      Sign_id server1 group1 peer7 = [GoAppendEntries None req] ∧
    AE_PrevLogIndex req = 2 ∧
    AE_Signature req = signData_concat 1 3 2 1.
Proof.
  eexists. split; [reflexivity|].
  destruct (dispatched_request_consistent GetNode_9 pool_unreachable
              signData_concat Sign_id server1 group1 peer7 None _
              ltac:(vm_compute; left))
    as (_ & _ & _ & _ & _ & _ & _ & Hidx & _ & Hsig).
  split; [exact Hidx | exact Hsig].
Defined.

End DirectoryFacts.

(* ===================================================================== *)
(** * AlphaNodes and the bootstrap list                                   *)
(* ===================================================================== *)

Module AlphaFacts.
Import Utils UtilsFacts.

Section Facts.

Variable ALPHA_GROUP : Z.
Variable HashData : bytes → Z.
Variable NodesSignData : list Node → bytes.
Variable GetClusterRPC : string → option RPC.

Local Abbreviation AlphaNodes :=
  (Utils.AlphaNodes ALPHA_GROUP HashData NodesSignData GetClusterRPC).

Lemma omap_filter_is_Some {A B} (f : A → option B) (l : list A) :
  omap f (filter (λ a, is_Some (f a)) l) = omap f l.
Proof.
  induction l as [|a l IH]; [done|].
  destruct (f a) as [b|] eqn:Hfa.
  - rewrite filter_cons_True by (rewrite Hfa; eauto). csimpl.
    rewrite Hfa. csimpl. by rewrite IH.
  - rewrite filter_cons_False by (rewrite Hfa; by intros [? ?]). csimpl.
    by rewrite Hfa.
Qed.

Lemma omap_length_filter {A B} (f : A → option B) (l : list A) :
  length (omap f l) = length (filter (λ a, is_Some (f a)) l).
Proof.
  induction l as [|a l IH]; [done|]. csimpl.
  destruct (f a) as [c|] eqn:Ha.
  - rewrite filter_cons_True by (rewrite Ha; eauto). simpl. by rewrite IH.
  - by rewrite filter_cons_False by (rewrite Ha; by intros [? ?]).
Qed.

(** X14. The bootstrap addresses that cannot be dialled play no part:
    AlphaNodes gives the same answer on the list with those addresses
    removed, and the stubs it polls are one per listed address that can be
    dialled, an address listed twice being polled twice. *)
Theorem AlphaNodes_ignores_undialable (servers : list string) :
  AlphaNodes servers
    = AlphaNodes (filter (λ addr, is_Some (GetClusterRPC addr)) servers) ∧
  length (bootstrap GetClusterRPC servers [])
    = length (filter (λ addr, is_Some (GetClusterRPC addr)) servers) ∧
  bootstrap GetClusterRPC (servers ++ servers) []
    = bootstrap GetClusterRPC servers [] ++ bootstrap GetClusterRPC servers [].
Proof.
  unfold Utils.AlphaNodes. rewrite !bootstrap_omap. simpl.
  rewrite omap_filter_is_Some. split_and!; [done | |].
  - apply omap_length_filter.
  - by rewrite omap_app.
Qed.

End Facts.

End AlphaFacts.

(* ===================================================================== *)
(** * The client: resolver caches, request ids, inboxes and the select    *)
(* ===================================================================== *)

Module ExecutorFacts.
Import Utils Client UtilsFacts ClientFacts.

Section Facts.

Variable HashData : bytes → Z.
Variable NodesSignData : list Node → bytes.
Variable GetClusterRPC : string → option RPC.
Variable ExecCommandSignData : CommandRequest → bytes.
Variable Sign : bytes → bytes → bytes.
Variable PickMajority : list Z → Z.
Variable ExpectedPlayers : nat → nat.
Variable ParsePrivateKey : bytes → bytes * option error.
Variable PublicKeyFromPrivate : bytes → bytes.
Variable HashPublicKey : bytes → Z.
Variable NewAlphaRPCsCache : list string → list RPC.

Local Abbreviation NewClient :=
  (Client.NewClient ParsePrivateKey PublicKeyFromPrivate HashPublicKey
     NewAlphaRPCsCache).
Local Abbreviation GetGroupHosts := (Client.GetGroupHosts HashData NodesSignData).
Local Abbreviation GetGroupLeader := (Client.GetGroupLeader HashData GetClusterRPC).
Local Abbreviation collect := (Client.collect HashData).
Local Abbreviation await := (Client.await HashData PickMajority).
Local Abbreviation signedRequest := (Client.signedRequest ExecCommandSignData Sign).
Local Abbreviation ExecCommand :=
  (Client.ExecCommand HashData NodesSignData GetClusterRPC ExecCommandSignData
     Sign PickMajority ExpectedPlayers).
Local Abbreviation resolves :=
  (Client.resolves HashData NodesSignData GetClusterRPC).

(** ** What the resolver leaves alone *)

Lemma GetGroupLeader_frame brc groupId r brc' :
  GetGroupLeader brc groupId = Done (r, brc') →
  AlphaRPCs brc' = AlphaRPCs brc ∧ GroupHosts brc' = GroupHosts brc ∧
  CmdResChan brc' = CmdResChan brc ∧ Counter brc' = Counter brc.
Proof.
  unfold Client.GetGroupLeader.
  destruct (GroupLeader brc !! _); [by intros [= _ <-]|].
  destruct (MajorityResponse _ _ _) as [res|]; [|done]. simpl.
  destruct res as [[node|]|]; try by intros [= _ <-].
  destruct (GetClusterRPC _); by intros [= _ <-].
Qed.

Lemma GetGroupHosts_frame brc groupId r brc' :
  GetGroupHosts brc groupId = Done (r, brc') →
  AlphaRPCs brc' = AlphaRPCs brc ∧ GroupLeader brc' = GroupLeader brc ∧
  CmdResChan brc' = CmdResChan brc ∧ Counter brc' = Counter brc.
Proof.
  unfold Client.GetGroupHosts.
  destruct (GroupHosts brc !! _); [by intros [= _ <-]|].
  destruct (MajorityResponse _ _ _) as [res|]; [|done]. simpl.
  destruct res as [[nodes|]|]; by intros [= _ <-].
Qed.

(** ** The resolver caches *)

(** X15. A host list GetGroupHosts returned is returned again by the next
    call, from the cache and without a change of the client; a failed
    resolution is not remembered: the client is left as it was, so the next
    call polls the alpha clients again. *)
Theorem GetGroupHosts_twice brc groupId r brc' :
  GetGroupHosts brc groupId = Done (r, brc') →
  match r with
  | Some hosts => GetGroupHosts brc' groupId = Done (Some hosts, brc')
  | None => brc' = brc
  end.
Proof.
  unfold Client.GetGroupHosts.
  destruct (GroupHosts brc !! _) as [cached|] eqn:Hc.
  - intros [= <- <-]. by rewrite Hc.
  - destruct (MajorityResponse _ _ _) as [res|]; [|done]. simpl.
    destruct res as [[nodes|]|]; intros [= <- <-]; [|done..].
    simpl. by rewrite lookup_insert_eq.
Qed.

(** X16. A leader stub GetGroupLeader returned is returned again by the
    next call, from the cache; when no leader was found, also because the
    accepted leader's address could not be dialled, nothing is remembered
    and the client is left as it was. *)
Theorem GetGroupLeader_twice brc groupId r brc' :
  GetGroupLeader brc groupId = Done (r, brc') →
  match r with
  | Some leader => GetGroupLeader brc' groupId = Done (Some leader, brc')
  | None => brc' = brc
  end.
Proof.
  unfold Client.GetGroupLeader.
  destruct (GroupLeader brc !! _) as [cached|] eqn:Hc.
  - intros [= <- <-]. by rewrite Hc.
  - destruct (MajorityResponse _ _ _) as [res|]; [|done]. simpl.
    destruct res as [[node|]|]; try (intros [= <- <-]; done).
    destruct (GetClusterRPC _); intros [= <- <-]; [|done].
    simpl. by rewrite lookup_insert_eq.
Qed.

(** A query that panics on one client takes the fan-out down. *)
Lemma exec_mapM_Panic {A B} (f : A → Exec B) (l : list A) a msg :
  a ∈ l → f a = Panic msg → ∃ msg', exec_mapM f l = Panic msg'.
Proof.
  intros Hin Hfa. induction l as [|x l IH]; [by apply elem_of_nil in Hin|].
  simpl. destruct (f x) as [b|m] eqn:Hfx; simpl; [|by exists m].
  apply elem_of_cons in Hin as [->|Hin]; [congruence|].
  destruct (IH Hin) as [msg' ->]. by exists msg'.
Qed.

(** X17. On a miss of the leader cache, one polled alpha client answering
    the leader query with a nil Node is enough to end GetGroupLeader, and
    with it ExecCommand, in a panic: the closure reads [res.Node.ServerAddr]
    after logging that the Node is nil. *)
Theorem GetGroupLeader_nil_node_panics brc groupId c :
  GroupLeader brc !! Itoa (int groupId) = None →
  c ∈ AlphaRPCs brc →
  rpc_GetGroupLeader c groupId = Some None →
  ∃ msg, GetGroupLeader brc groupId = Panic msg ∧
         ∀ funcId arg sched, ExecCommand brc groupId funcId arg sched = Panic msg.
Proof.
  intros Hmiss Hin Hnil.
  destruct (exec_mapM_Panic (groupLeaderQuery groupId) (AlphaRPCs brc) c
              "invalid memory address or nil pointer dereference" Hin)
    as [msg Hrun].
  { unfold groupLeaderQuery. by rewrite Hnil. }
  assert (Hl : GetGroupLeader brc groupId = Panic msg).
  { unfold Client.GetGroupLeader, MajorityResponse. by rewrite Hmiss, Hrun. }
  exists msg. split; [done|]. intros funcId arg sched.
  unfold Client.ExecCommand. by rewrite Hl.
Qed.

(** ** The command executor *)

(** The two ways ExecCommand returns: before the leader check is passed, or
    after the request was signed, registered and handed to the leader
    goroutine. *)
Lemma ExecCommand_inv brc groupId funcId arg sched reply :
  ExecCommand brc groupId funcId arg sched = Done reply →
  (∃ brc1, GetGroupLeader brc groupId = Done (None, brc1) ∧
           reply = mkReply (inr errNoLeader) brc1 []) ∨
  (∃ leader brc1 hosts brc3,
     let reqId := nextCounter brc1 mod 2 ^ 64 in
     let brc1' := set_Counter brc1 (nextCounter brc1) in
     GetGroupLeader brc groupId = Done (Some leader, brc1) ∧
     GetGroupHosts (register brc1' groupId reqId) groupId = Done (hosts, brc3) ∧
     client reply = unregister brc3 groupId reqId ∧
     head (spawned reply)
       = Some (GoExecOnLeader leader
                 (signedRequest brc1' groupId reqId funcId arg)) ∧
     result reply = match hosts with
                    | Some hs => await (ExpectedPlayers (length hs)) sched
                    | None => inr errNoHosts
                    end).
Proof.
  unfold Client.ExecCommand.
  destruct (Client.GetGroupLeader _ _ brc groupId) as [[leader brc1]|] eqn:Hl;
    [|done].
  simpl. destruct leader as [leader|];
    [|intros [= <-]; left; by exists brc1].
  destruct (Client.GetGroupHosts _ _ _ groupId) as [[hosts brc3]|] eqn:Hh;
    [|done].
  simpl. intros Hrun. right. exists leader, brc1, hosts, brc3.
  destruct hosts as [hs|]; inversion Hrun; subst; simpl; by split_and!.
Qed.

(** X18. A call of ExecCommand that returns uses up a request id exactly
    when it gets past the leader check. Without a leader it returns the
    error "cannot found leader", starts no goroutine and leaves counter and
    inboxes alone. Otherwise the counter has gone up by one (within 64
    bits), whether the call then succeeded, timed out or found no hosts, and
    the request handed to the leader goroutine carries the new counter as
    its id. *)
Theorem ExecCommand_consumes_one_id brc groupId funcId arg sched reply :
  ExecCommand brc groupId funcId arg sched = Done reply →
  (result reply = inr errNoLeader ∧ spawned reply = [] ∧
   Counter (client reply) = Counter brc ∧
   CmdResChan (client reply) = CmdResChan brc) ∨
  (∃ leader cmdReq,
     head (spawned reply) = Some (GoExecOnLeader leader cmdReq) ∧
     Counter (client reply) = int (Counter brc + 1) ∧
     CR_RequestId cmdReq = Counter (client reply) mod 2 ^ 64).
Proof.
  intros Hrun.
  destruct (ExecCommand_inv _ _ _ _ _ _ Hrun)
    as [(brc1 & Hl & ->)|(leader & brc1 & hosts & brc3 & Hl & Hh & Hc & Hs & _)].
  - left. apply GetGroupLeader_frame in Hl as (_ & _ & Hchan & Hcnt).
    by split_and!.
  - right. eexists leader, _. split; [exact Hs|].
    apply GetGroupLeader_frame in Hl as (_ & _ & _ & Hcnt).
    apply GetGroupHosts_frame in Hh as (_ & _ & _ & Hcnt3).
    rewrite Hc. simpl. rewrite Hcnt3. simpl.
    unfold nextCounter. by rewrite Hcnt.
Qed.

(** X19. When ExecCommand returns after it handed a request to the leader
    goroutine, the deferred cleanup has taken the request's inbox away:
    the group keeps an entry in the inbox table (the inner map is never
    deleted), the request id is no longer in it, every other request id of
    the group is there exactly if it was before, and the inboxes of other
    groups are untouched. *)
Theorem ExecCommand_inbox_removed
    brc groupId funcId arg sched reply leader cmdReq :
  ExecCommand brc groupId funcId arg sched = Done reply →
  head (spawned reply) = Some (GoExecOnLeader leader cmdReq) →
  (∃ chans,
     CmdResChan (client reply) !! groupId = Some chans ∧
     (CR_RequestId cmdReq ∉ chans) ∧
     (∀ id, id ≠ CR_RequestId cmdReq →
        (id ∈ chans ↔ id ∈ default ∅ (CmdResChan brc !! groupId)))) ∧
  (∀ g, g ≠ groupId →
     CmdResChan (client reply) !! g = CmdResChan brc !! g).
Proof.
  intros Hrun Hhead.
  destruct (ExecCommand_inv _ _ _ _ _ _ Hrun)
    as [(brc1 & Hl & ->)|(ldr & brc1 & hosts & brc3 & Hl & Hh & Hc & Hs & _)];
    [done|].
  rewrite Hs in Hhead. inversion Hhead; subst leader cmdReq. clear Hhead.
  apply GetGroupLeader_frame in Hl as (_ & _ & Hchan1 & _).
  apply GetGroupHosts_frame in Hh as (_ & _ & Hchan3 & _).
  rewrite Hc. unfold unregister. simpl. rewrite Hchan3.
  unfold register. simpl. rewrite Hchan1, lookup_insert_eq. simpl.
  rewrite ?lookup_insert_eq. simpl. split.
  - eexists. split; [reflexivity|]. split.
    + intros [_ Hn]%elem_of_difference. apply Hn. by apply elem_of_singleton.
    + intros id Hid.
      rewrite elem_of_difference, elem_of_union, elem_of_singleton.
      split; [by intros [[?|?] ?] | intros ?; split; [by left | done]].
  - intros g Hg. by rewrite !lookup_insert_ne.
Qed.

(** The release time of the collector stays below any bound that is above
    its start and above the times of the deliveries it takes. *)
Lemma collect_before n : ∀ inbox rr hs t rr' hs' t' bound,
  collect n inbox rr hs t = Some (rr', hs', t') →
  t < bound → Forall (λ m, m.1 < bound) (take n inbox) → t' < bound.
Proof.
  induction n as [|n IH]; intros inbox rr hs t rr' hs' t' bound Hc Ht Hall;
    simpl in Hc.
  - by inversion Hc; subst.
  - destruct inbox as [|[t1 res] inbox]; [done|].
    simpl in Hall. apply Forall_cons_1 in Hall as [H1 Hall]. simpl in H1.
    eapply IH; [exact Hc | lia | exact Hall].
Qed.

(** X20. Once leader and hosts are resolved, if the inbox delivers the
    expected number of responses, each before the ten-second timer fires,
    ExecCommand returns a result and no error: the latest collected
    response whose hash is the one PickMajority selects, or empty bytes
    when no collected response has that hash (as when no response at all is
    expected). *)
Theorem ExecCommand_in_time brc groupId funcId arg sched leader hosts :
  resolves brc groupId leader (Some hosts) →
  let n := ExpectedPlayers (length hosts) in
  let got := collected n sched in
  (n ≤ length (inbox sched))%nat →
  Forall (λ m, m.1 < timeout) (take n (inbox sched)) →
  ∃ reply,
    ExecCommand brc groupId funcId arg sched = Done reply ∧
    result reply =
      inl (default [] (last (filter
             (λ res, HashData res = PickMajority (HashData <$> got)) got))).
Proof.
  intros Hres n got Hlen Hall.
  destruct (ExecCommand_resolved HashData NodesSignData GetClusterRPC
              ExecCommandSignData Sign PickMajority ExpectedPlayers
              brc groupId funcId arg sched _ _ Hres)
    as (reply & cmdReq & Hrun & _ & Hresult & _).
  exists reply. split; [done|]. rewrite Hresult. fold n.
  unfold Client.await.
  destruct (proj2 (collect_Some HashData n (inbox sched) ∅ [] 0) Hlen)
    as [[[rr hs] t] Hc].
  rewrite Hc.
  assert (Ht : t < timeout).
  { eapply collect_before; [exact Hc | by vm_compute | exact Hall]. }
  apply collect_result in Hc as (-> & _ & _ & Hrr).
  apply Z.ltb_lt in Ht. rewrite Ht. simpl.
  rewrite Hrr, lookup_empty. fold (collected n sched). fold got.
  by destruct (last (filter _ got)).
Qed.

(** A leader stub GetGroupLeader returns is the one its cache holds. *)
Lemma GetGroupLeader_cached brc groupId leader brc' :
  GetGroupLeader brc groupId = Done (Some leader, brc') →
  GroupLeader brc' !! Itoa (int groupId) = Some leader.
Proof.
  unfold Client.GetGroupLeader.
  destruct (GroupLeader brc !! _) as [cached|] eqn:Hc; [by intros [= <- <-]|].
  destruct (MajorityResponse _ _ _) as [res|]; [|done]. simpl.
  destruct res as [[node|]|]; try done.
  destruct (GetClusterRPC _); [|done].
  intros [= <- <-]. simpl. apply lookup_insert_eq.
Qed.

(** X21. A call of ExecCommand that got past the leader check leaves the
    leader it used in the leader cache, so that the next resolution of the
    group's leader is answered from the cache with the same stub; and
    unless the call ended with "cannot get group hosts", the group's hosts
    are in the host cache as well. *)
Theorem ExecCommand_caches_resolution
    brc groupId funcId arg sched reply leader cmdReq :
  ExecCommand brc groupId funcId arg sched = Done reply →
  head (spawned reply) = Some (GoExecOnLeader leader cmdReq) →
  GroupLeader (client reply) !! Itoa (int groupId) = Some leader ∧
  GetGroupLeader (client reply) groupId = Done (Some leader, client reply) ∧
  (result reply ≠ inr errNoHosts →
     is_Some (GroupHosts (client reply) !! Itoa (int groupId))).
Proof.
  intros Hrun Hhead.
  destruct (ExecCommand_inv _ _ _ _ _ _ Hrun)
    as [(brc1 & Hl & ->)|(ldr & brc1 & hosts & brc3 & Hl & Hh & Hc & Hs & Hr)];
    [done|].
  rewrite Hs in Hhead. inversion Hhead; subst leader cmdReq. clear Hhead.
  apply GetGroupLeader_cached in Hl.
  assert (Hcache : GroupLeader (client reply) !! Itoa (int groupId) = Some ldr).
  { apply GetGroupHosts_frame in Hh as (_ & Hldr & _ & _).
    rewrite Hc. simpl. by rewrite Hldr. }
  split_and!; [done | |].
  - unfold Client.GetGroupLeader. by rewrite Hcache.
  - intros Hne. destruct hosts as [hs|]; [|by rewrite Hr in Hne].
    apply (GetGroupHosts_cached HashData NodesSignData) in Hh.
    rewrite Hc. simpl. by rewrite Hh.
Qed.

(** X22. NewClient hands out a client exactly when the key parses, and
    the parser's error otherwise. The first command of a new client that
    gets past the leader check carries request id 1, the hash of the public
    key of the parsed key as client id, and a signature made with the
    parsed key over the request with an empty signature field. *)
Theorem NewClient_first_command
    bootstraps opts groupId funcId arg sched :
  let key := (ParsePrivateKey (Opt_PrivateKey opts)).1 in
  ((NewClient bootstraps opts).2 = (ParsePrivateKey (Opt_PrivateKey opts)).2) ∧
  (is_Some (NewClient bootstraps opts).1
     ↔ (ParsePrivateKey (Opt_PrivateKey opts)).2 = None) ∧
  (∀ brc reply leader cmdReq,
     (NewClient bootstraps opts).1 = Some brc →
     ExecCommand brc groupId funcId arg sched = Done reply →
     head (spawned reply) = Some (GoExecOnLeader leader cmdReq) →
     cmdReq =
       {| CR_Group := groupId;
          CR_ClientId := HashPublicKey (PublicKeyFromPrivate key);
          CR_RequestId := 1; CR_FuncId := funcId; CR_Arg := arg;
          CR_Signature :=
            Sign key
              (ExecCommandSignData
                 {| CR_Group := groupId;
                    CR_ClientId := HashPublicKey (PublicKeyFromPrivate key);
                    CR_RequestId := 1; CR_FuncId := funcId; CR_Arg := arg;
                    CR_Signature := [] |}) |}).
Proof.
  intros key. unfold Client.NewClient, key.
  destruct (ParsePrivateKey (Opt_PrivateKey opts)) as [privateKey [e|]]; simpl.
  { split_and!; [done | split; [by intros [? ?] | done] | done]. }
  split_and!; [done | split; eauto |].
  intros brc reply leader cmdReq [= <-] Hrun Hhead.
  destruct (ExecCommand_inv _ _ _ _ _ _ Hrun)
    as [(brc1 & Hl & ->)|(ldr & brc1 & hosts & brc3 & Hl & _ & _ & Hs & _)];
    [done|].
  rewrite Hs in Hhead. inversion Hhead; subst leader cmdReq. clear Hhead.
  destruct (GetGroupLeader_identity HashData GetClusterRPC _ _ _ _ Hl)
    as [Hid Hkey].
  apply GetGroupLeader_frame in Hl as (_ & _ & _ & Hcnt).
  unfold Client.signedRequest, nextCounter. simpl in *.
  rewrite Hid, Hkey, Hcnt. done.
Qed.

End Facts.

(** ** At the example clients *)

Local Abbreviation run_GetGroupHosts :=
  (Client.GetGroupHosts HashData_poly NodesSignData_addrs).
Local Abbreviation run_GetGroupLeader :=
  (Client.GetGroupLeader HashData_poly dial_all).
Local Abbreviation run_ExecCommand :=
  (Client.ExecCommand HashData_poly NodesSignData_addrs dial_all
     ExecCommandSignData_fields Sign_concat PickMajority_plurality
     ExpectedPlayers_bft).

(** X15, at [client3] and group 7. *)
Lemma GetGroupHosts_twice_witness :
  ∃ brc', run_GetGroupHosts client3 7 = Done (Some hosts4, brc') ∧
          run_GetGroupHosts brc' 7 = Done (Some hosts4, brc').
Proof.
  let v := eval vm_compute in (run_GetGroupHosts client3 7) in
  match v with
  | Done (_, ?b) => exists b
  end.
  split; [vm_compute; reflexivity|].
  apply (GetGroupHosts_twice HashData_poly NodesSignData_addrs
           client3 7 (Some hosts4)).
  vm_compute. reflexivity.
Defined.

(** X16, at [client3] and group 7. *)
Lemma GetGroupLeader_twice_witness :
  ∃ leader brc',
    run_GetGroupLeader client3 7 = Done (Some leader, brc') ∧
    run_GetGroupLeader brc' 7 = Done (Some leader, brc').
Proof.
  let v := eval vm_compute in (run_GetGroupLeader client3 7) in
  match v with
  | Done (Some ?l, ?b) => exists l, b
  end.
  split; [vm_compute; reflexivity|].
  eapply (GetGroupLeader_twice HashData_poly dial_all client3 7 (Some _)).
  vm_compute. reflexivity.
Defined.

(** X17, at a client one of whose three alpha nodes knows no leader. *)
Lemma GetGroupLeader_nil_node_panics_witness :
  GroupLeader client_nil_leader !! Itoa (int 7) = None ∧
  alphaNilLeader "10.0.0.13:4000" ∈ AlphaRPCs client_nil_leader ∧
  ∃ msg, run_GetGroupLeader client_nil_leader 7 = Panic msg ∧
         ∀ funcId arg sched,
           run_ExecCommand client_nil_leader 7 funcId arg sched = Panic msg.
Proof.
  assert (Hin : alphaNilLeader "10.0.0.13:4000" ∈ AlphaRPCs client_nil_leader).
  { apply elem_of_cons. right. apply elem_of_cons. right.
    apply elem_of_cons. by left. }
  split; [reflexivity|]. split; [exact Hin|].
  exact (GetGroupLeader_nil_node_panics HashData_poly NodesSignData_addrs
           dial_all ExecCommandSignData_fields Sign_concat
           PickMajority_plurality ExpectedPlayers_bft
           client_nil_leader 7 _ eq_refl Hin eq_refl).
Defined.

(** X18, at [client3]: the first command of a client carries id 1. *)
Lemma ExecCommand_consumes_one_id_witness :
  ∃ reply,
    run_ExecCommand client3 7 42 [xaa] sched_byzantine_first = Done reply ∧
    Counter (client reply) = 1 ∧
    ((result reply = inr errNoLeader ∧ spawned reply = [] ∧
      Counter (client reply) = Counter client3 ∧
      CmdResChan (client reply) = CmdResChan client3) ∨
     (∃ leader cmdReq,
        head (spawned reply) = Some (GoExecOnLeader leader cmdReq) ∧
        Counter (client reply) = int (Counter client3 + 1) ∧
        CR_RequestId cmdReq = Counter (client reply) mod 2 ^ 64)).
Proof.
  let v := eval vm_compute in
    (run_ExecCommand client3 7 42 [xaa] sched_byzantine_first) in
  match v with
  | Done ?r => exists r
  end.
  split; [vm_compute; reflexivity|]. split; [reflexivity|].
  apply (ExecCommand_consumes_one_id HashData_poly NodesSignData_addrs
           dial_all ExecCommandSignData_fields Sign_concat
           PickMajority_plurality ExpectedPlayers_bft
           client3 7 42 [xaa] sched_byzantine_first).
  vm_compute. reflexivity.
Defined.

(** X19, at [client3]: after the call group 7 has an empty inbox table. *)
Lemma ExecCommand_inbox_removed_witness :
  ∃ reply leader cmdReq,
    run_ExecCommand client3 7 42 [xaa] sched_one_reply = Done reply ∧
    head (spawned reply) = Some (GoExecOnLeader leader cmdReq) ∧
    (∃ chans,
       CmdResChan (client reply) !! 7 = Some chans ∧
       (CR_RequestId cmdReq ∉ chans) ∧
       (∀ id, id ≠ CR_RequestId cmdReq →
          (id ∈ chans ↔ id ∈ default ∅ (CmdResChan client3 !! 7)))) ∧
    (∀ g, g ≠ 7 → CmdResChan (client reply) !! g = CmdResChan client3 !! g).
Proof.
  let v := eval vm_compute in
    (run_ExecCommand client3 7 42 [xaa] sched_one_reply) in
  match v with
  | Done ?r =>
      let h := eval vm_compute in (head (spawned r)) in
      match h with
      | Some (GoExecOnLeader ?l ?c) => exists r, l, c
      end
  end.
  split; [vm_compute; reflexivity|]. split; [reflexivity|].
  eapply (ExecCommand_inbox_removed HashData_poly NodesSignData_addrs
           dial_all ExecCommandSignData_fields Sign_concat
           PickMajority_plurality ExpectedPlayers_bft
           client3 7 42 [xaa] sched_one_reply);
    [vm_compute; reflexivity | reflexivity].
Defined.

(** X20, at [client3] with four hosts: the three awaited responses arrive
    after one, two and three seconds. *)
Lemma ExecCommand_in_time_witness :
  (∃ leader, resolves HashData_poly NodesSignData_addrs dial_all
               client3 7 leader (Some hosts4)) ∧
  (ExpectedPlayers_bft (length hosts4)
     ≤ length (inbox sched_byzantine_first))%nat ∧
  Forall (λ m, m.1 < timeout)
    (take (ExpectedPlayers_bft (length hosts4)) (inbox sched_byzantine_first)) ∧
  ∃ reply,
    run_ExecCommand client3 7 42 [xaa] sched_byzantine_first = Done reply ∧
    result reply = inl [x01; x02].
Proof.
  assert (Hlen : (ExpectedPlayers_bft (length hosts4)
                    ≤ length (inbox sched_byzantine_first))%nat)
    by (vm_compute; lia).
  assert (Hall : Forall (λ m, m.1 < timeout)
            (take (ExpectedPlayers_bft (length hosts4))
               (inbox sched_byzantine_first)))
    by (simpl; repeat (constructor; [reflexivity|]); constructor).
  split; [exact client3_resolves|]. split; [exact Hlen|].
  split; [exact Hall|].
  destruct client3_resolves as [leader Hres].
  destruct (ExecCommand_in_time HashData_poly NodesSignData_addrs dial_all
              ExecCommandSignData_fields Sign_concat PickMajority_plurality
              ExpectedPlayers_bft client3 7 42 [xaa] sched_byzantine_first
              leader hosts4 Hres Hlen Hall) as (reply & Hrun & Hresult).
  exists reply. split; [exact Hrun|]. rewrite Hresult. vm_compute. reflexivity.
Defined.

(** X21, at [client3]: the command times out, leader and hosts stay
    cached. *)
Lemma ExecCommand_caches_resolution_witness :
  ∃ reply leader cmdReq,
    run_ExecCommand client3 7 42 [xaa] sched_one_reply = Done reply ∧
    head (spawned reply) = Some (GoExecOnLeader leader cmdReq) ∧
    result reply = inr errTimeout ∧
    GroupLeader (client reply) !! Itoa (int 7) = Some leader ∧
    run_GetGroupLeader (client reply) 7 = Done (Some leader, client reply) ∧
    (result reply ≠ inr errNoHosts →
       is_Some (GroupHosts (client reply) !! Itoa (int 7))).
Proof.
  let v := eval vm_compute in
    (run_ExecCommand client3 7 42 [xaa] sched_one_reply) in
  match v with
  | Done ?r =>
      let h := eval vm_compute in (head (spawned r)) in
      match h with
      | Some (GoExecOnLeader ?l ?c) => exists r, l, c
      end
  end.
  split; [vm_compute; reflexivity|]. split; [reflexivity|].
  split; [reflexivity|].
  eapply (ExecCommand_caches_resolution HashData_poly NodesSignData_addrs
            dial_all ExecCommandSignData_fields Sign_concat
            PickMajority_plurality ExpectedPlayers_bft
            client3 7 42 [xaa] sched_one_reply);
    [vm_compute; reflexivity | reflexivity].
Defined.

(** A new client on three bootstrap addresses: its first command. *)
Example NewClient_first_command_run :
  ∃ brc,
    Client.NewClient ParsePrivateKey_raw PublicKeyFromPrivate_rev HashData_poly
      NewAlphaRPCsCache_dial bootstraps3 (mkOptions [x2a; x2b]) = (Some brc, None) ∧
    (r ← run_ExecCommand brc 7 42 [xaa] sched_byzantine_first ;;;
     Done (result r, CR_RequestId <$> (head (spawned r) ≫= λ g,
             match g with GoExecOnLeader _ c => Some c | _ => None end)))
      = Done (inl [x01; x02], Some 1).
Proof. eexists. split; [reflexivity|]. vm_compute. reflexivity. Qed.

(** A key that does not parse. *)
Example NewClient_bad_key :
  Client.NewClient ParsePrivateKey_raw PublicKeyFromPrivate_rev HashData_poly
    NewAlphaRPCsCache_dial bootstraps3 (mkOptions [])
    = (None, Some "failed to parse private key").
Proof. reflexivity. Qed.

End ExecutorFacts.
